(** * Mush: variable store, program store and job table

    A shallow embedding of the three modules of the Mush interpreter
    (the data store, the program store and [jobs.c]) together with the
    properties of their public operations.

    Conventions of the embedding.
    - A C [int] or [long] is a [Z]; where the source can overflow the
      wrap-around is written out ([wrap_long]).  [long] is the 64-bit
      type of the LP64 platforms the code is built for.
    - A [char *] holding a C string is the Coq [string] of the characters
      that precede the terminating NUL; a nullable pointer is an [option].
      The data store is taken at this level, and the length of a string
      is taken to fit the [int] that holds it.  The blocks
      [store_set_string] allocates have the size of the string and its
      NUL, which is what [strncpy] fills; the block [store_set_int]
      allocates is modelled with its size, because what [sprintf] stores
      is not of that size.
    - Raw bytes read from a pipe are [Byte.byte]s, and a heap block that
      receives them is the list of the bytes of the block.
    - The circular doubly-linked lists with a sentinel head are lists of
      the nodes met from [head->next] up to [head].  Program lines carry
      the address of their node, because the program counter is a pointer
      to a node (or to the sentinel).
    - What the system answers ([malloc], [kill], [close], [waitpid],
      [read]) is an argument of the function that asks; [malloc] is
      taken to succeed, as the source takes it.
    - The handlers of SIGCHLD and SIGIO run with all signals blocked and
      are functions on the job table.  When they run is told by the
      caller of the model; it matters to [jobs_wait], which says at what
      point of its loop each signal is handled. *)

From Stdlib Require Import ZArith List String Ascii Bool Lia Sorted.
From Stdlib.Strings Require Import Byte.
Import ListNotations.
Open Scope Z_scope.

(** ** The C run time the modules rely on *)

Module C.

(** How a call ends: it returns, it accesses memory it must not (a null
    or freed pointer, a read or a write past the end of a block), or it
    leaves through [exit]. *)
Inductive outcome (A : Type) : Type :=
| Ret (a : A)
| Fault
| Exited (code : Z).
Arguments Ret {A} a.
Arguments Fault {A}.
Arguments Exited {A} code.

Definition EXIT_SUCCESS : Z := 0.
Definition EXIT_FAILURE : Z := 1.
Definition SIGKILL : Z := 9.

Definition LONG_MAX : Z := 2 ^ 63 - 1.
Definition LONG_MIN : Z := - 2 ^ 63.

(** Two's complement reduction of a mathematical integer to a [long]. *)
Definition wrap_long (z : Z) : Z := (z + 2 ^ 63) mod 2 ^ 64 - 2 ^ 63.

(** [<ctype.h>], C locale. *)
Definition code (c : ascii) : Z := Z.of_N (N_of_ascii c).

Definition isspace (c : ascii) : bool :=
  (code c =? 32) || ((9 <=? code c) && (code c <=? 13)).

Definition isdigit (c : ascii) : bool :=
  (48 <=? code c) && (code c <=? 57).

Definition digit_val (c : ascii) : Z := code c - 48.

Definition digit_char (d : Z) : ascii := ascii_of_N (Z.to_N (48 + d)).

(** [strtol(nptr, &endptr, 10)]: white space is skipped, one sign is
    accepted, then the longest run of decimal digits is converted.  The
    result is the value (clamped to the range of [long]) and the text
    [endptr] points to; without any digit no conversion is made and
    [endptr] is [nptr]. *)
Fixpoint skip_space (s : string) : string :=
  match s with
  | String c r => if isspace c then skip_space r else s
  | EmptyString => s
  end.

Fixpoint scan_digits (acc : Z) (s : string) : Z * string :=
  match s with
  | String c r =>
      if isdigit c then scan_digits (acc * 10 + digit_val c) r else (acc, s)
  | EmptyString => (acc, s)
  end.

Definition clamp_long (z : Z) : Z :=
  if z <? LONG_MIN then LONG_MIN
  else if LONG_MAX <? z then LONG_MAX
  else z.

(** The sign, and the text after it. *)
Definition strtol_sign (s1 : string) : bool * string :=
  match s1 with
  | String c r =>
      if Ascii.eqb c "-" then (true, r)
      else if Ascii.eqb c "+" then (false, r)
      else (false, s1)
  | EmptyString => (false, s1)
  end.

(** The conversion of the digits at the start of [s2]. *)
Definition strtol_convert (nptr : string) (neg : bool) (s2 : string)
  : Z * string :=
  match s2 with
  | String c _ =>
      if isdigit c then
        let '(v, rest) := scan_digits 0 s2 in
        (clamp_long (if neg then - v else v), rest)
      else (0, nptr)
  | EmptyString => (0, nptr)
  end.

Definition strtol (nptr : string) : Z * string :=
  let '(neg, s2) := strtol_sign (skip_space nptr) in
  strtol_convert nptr neg s2.

(** The texts that [strtol] converts up to their end: white space, then
    at most one sign, then at least one digit and only digits. *)
Fixpoint all_chars (p : ascii -> bool) (s : string) : bool :=
  match s with
  | EmptyString => true
  | String c r => p c && all_chars p r
  end.

Definition integer_text (v : string) : Prop :=
  exists ws sg ds : string,
    v = (ws ++ sg ++ ds)%string
    /\ all_chars isspace ws = true
    /\ (sg = EmptyString \/ sg = "+"%string \/ sg = "-"%string)
    /\ ds <> EmptyString
    /\ all_chars isdigit ds = true.

(** The [%ld] conversion of [printf]: the decimal digits of the value,
    most significant first, after a minus sign when it is negative. *)
Fixpoint utoa (fuel : nat) (n : Z) (acc : string) : string :=
  let acc' := String (digit_char (n mod 10)) acc in
  match fuel with
  | O => acc'
  | S f => if n / 10 =? 0 then acc' else utoa f (n / 10) acc'
  end.

Definition decimal (n : Z) : string :=
  utoa (Z.to_nat (Z.log2 n)) n EmptyString.

Definition ltoa (v : Z) : string :=
  if v <? 0 then String "-"%char (decimal (- v)) else decimal v.

End C.
Import C.

(** ** The data store *)

Module Store.

(** [VAR_NODE]; [var_value] is [None] for a variable that is un-set. *)
Record VAR_NODE : Type := {
  var_name : string;
  var_value : option string
}.

(** [VAR_STORE]: the nodes linked after the dummy head. *)
Definition VAR_STORE : Type := list VAR_NODE.

(** [strcmp(a, b) == 0]. *)
Definition streq (a b : string) : bool := String.eqb a b.

Fixpoint get_string_loop (var : string) (l : list VAR_NODE) : option string :=
  match l with
  | [] => None
  | n :: rest =>
      if streq var (var_name n) then var_value n
      else get_string_loop var rest
  end.

Definition store_get_string (vstorage : option VAR_STORE) (var : string)
  : option string :=
  match vstorage with
  | None => None
  | Some l => get_string_loop var l
  end.

(** What [store_get_int] makes of the value of the variable it has
    found: the returned code and, when the call stores one, the value
    written through [valp]. *)
Definition int_of_value (value : option string) : Z * option Z :=
  match value with
  | None => (-1, None)
  | Some EmptyString => (-1, None)
  | Some v =>
      let '(result, end_ptr) := strtol v in
      match end_ptr with
      | EmptyString => (0, Some result)
      | String _ _ => (-1, None)
      end
  end.

Fixpoint get_int_loop (var : string) (l : list VAR_NODE) : Z * option Z :=
  match l with
  | [] => (-1, None)
  | n :: rest =>
      if streq var (var_name n) then int_of_value (var_value n)
      else get_int_loop var rest
  end.

Definition store_get_int (vstorage : option VAR_STORE) (var : string)
  : Z * option Z :=
  match vstorage with
  | None => (-1, None)
  | Some l => get_int_loop var l
  end.

(** The search of [store_set_string] and [store_set_int]: the node of the
    first variable of that name receives the new value; when there is
    none a new node is linked before the head, that is at the end. *)
Fixpoint set_loop (var : string) (valcpy : option string)
    (l : list VAR_NODE) : list VAR_NODE :=
  match l with
  | [] => [ {| var_name := var; var_value := valcpy |} ]
  | n :: rest =>
      if streq var (var_name n)
      then {| var_name := var_name n; var_value := valcpy |} :: rest
      else n :: set_loop var valcpy rest
  end.

(** The store as the lazy initialisation of both setters leaves it. *)
Definition initialized (vstorage : option VAR_STORE) : VAR_STORE :=
  match vstorage with
  | None => []
  | Some l => l
  end.

Definition store_set_string (vstorage : option VAR_STORE)
    (var : option string) (val : option string) : option VAR_STORE * Z :=
  match var with
  | None => (vstorage, -1)
  | Some v => (Some (set_loop v val (initialized vstorage)), 0)
  end.

(** The loop [while(tempval != 0) { len++; tempval = tempval/10; }]; the
    division of C truncates toward zero. *)
Fixpoint len_loop (fuel : nat) (tempval len : Z) : option Z :=
  if tempval =? 0 then Some len
  else match fuel with
       | O => None
       | S f => len_loop f (Z.quot tempval 10) (len + 1)
       end.

(** The length [store_set_int] computes for the text of [val], its
    terminator included.  [-val] is taken in [long]. *)
Definition int_len (val : Z) : option Z :=
  let '(len, tempval) :=
    if val =? 0 then (1, val)
    else if val <? 0 then (1, wrap_long (- val))
    else (0, val) in
  match len_loop 64 tempval len with
  | Some len' => Some (len' + 1)
  | None => None
  end.

(** [sprintf(valcpy, "%ld%c", val, '\0')]: the text left in [valcpy] and
    the number of characters written, the NUL of [%c] among them.  This
    is the number the call returns. *)
Definition sprintf_ld_c (val : Z) : string * Z :=
  (ltoa val, Z.of_nat (String.length (ltoa val)) + 1).

(** The bytes a [sprintf] that returns [written] has stored: the
    characters it counts, and the NUL with which it ends its output,
    which it does not count. *)
Definition sprintf_stored (written : Z) : Z := written + 1.

(** The text [store_set_int] is about to store, written to the block of
    [len] bytes it gets from [malloc(len*sizeof(char))].  [None] when
    the length loop does not end; [Some Fault] when [sprintf] stores
    more bytes than the block has; [Some (Ret None)] when [sprintf] does
    not return the computed length (the call then gives up with [-1]);
    [Some (Ret (Some t))] otherwise. *)
Definition make_valcpy (val : Z) : option (outcome (option string)) :=
  match int_len val with
  | None => None
  | Some len =>
      let '(valcpy, written) := sprintf_ld_c val in
      if len <? sprintf_stored written then Some Fault
      else if negb (written =? len) then Some (Ret None)
      else Some (Ret (Some valcpy))
  end.

(** The search of [store_set_int].  Where the call gives up the list is
    returned as it was found (in the source the old value of the entry
    has been freed by then). *)
Fixpoint set_int_loop (var : string) (val : Z) (l : list VAR_NODE)
  : option (outcome (list VAR_NODE * Z)) :=
  match l with
  | [] =>
      match make_valcpy val with
      | None => None
      | Some Fault => Some Fault
      | Some (Exited e) => Some (Exited e)
      | Some (Ret None) => Some (Ret ([], -1))
      | Some (Ret (Some valcpy)) =>
          Some (Ret ([ {| var_name := var; var_value := Some valcpy |} ], 0))
      end
  | n :: rest =>
      if streq var (var_name n) then
        match make_valcpy val with
        | None => None
        | Some Fault => Some Fault
        | Some (Exited e) => Some (Exited e)
        | Some (Ret None) => Some (Ret (n :: rest, -1))
        | Some (Ret (Some valcpy)) =>
            Some (Ret ({| var_name := var_name n; var_value := Some valcpy |}
                         :: rest, 0))
        end
      else
        match set_int_loop var val rest with
        | None => None
        | Some Fault => Some Fault
        | Some (Exited e) => Some (Exited e)
        | Some (Ret (rest', r)) => Some (Ret (n :: rest', r))
        end
  end.

(** [store_set_int]: [None] when the length loop does not end, the
    outcome of the call otherwise. *)
Definition store_set_int (vstorage : option VAR_STORE)
    (var : option string) (val : Z)
  : option (outcome (option VAR_STORE * Z)) :=
  match var with
  | None => Some (Ret (vstorage, -1))
  | Some v =>
      match set_int_loop v val (initialized vstorage) with
      | None => None
      | Some Fault => Some Fault
      | Some (Exited e) => Some (Exited e)
      | Some (Ret (l, r)) => Some (Ret (Some l, r))
      end
  end.

(** [store_show]: the text printed. *)
Fixpoint show_loop (l : list VAR_NODE) : string :=
  match l with
  | [] => EmptyString
  | n :: rest =>
      (match var_value n with
       | None => var_name n ++ " "
       | Some v => var_name n ++ "=" ++ v
       end)
      ++ (match rest with [] => EmptyString | _ :: _ => ", " end)
      ++ show_loop rest
  end%string.

Definition store_show (vstorage : option VAR_STORE) : string :=
  match vstorage with
  | None => "{}"
  | Some l => "{" ++ show_loop l ++ "}"
  end%string.

(** *** Names *)

(** The names of the variables, in the order of the list. *)
Definition names (vstorage : option VAR_STORE) : list string :=
  map var_name (initialized vstorage).

End Store.

Import Store.

(** ** The program store *)

Module Prog.

(** Modelled from the spec: [STMT] is declared in mush.h, which is not
    part of the sources at hand.  The program store reads its [lineno]
    only; the rest of a statement is opaque to it and is kept as a text. *)
Record STMT : Type := {
  lineno : Z;
  stmt_text : string
}.

(** The address of a heap node. *)
Definition ptr : Type := Z.

(** [PROG_LINE]: a node, at its address, with its statement.  The [prev]
    and [next] links are the order of the list the node is in. *)
Record PROG_LINE : Type := {
  addr : ptr;
  content : STMT
}.

(** [PROG_STORE]: the dummy head, the lines linked after it, and the
    program counter ([None] is the null pointer). *)
Record PROG_STORE : Type := {
  head : ptr;
  lines : list PROG_LINE;
  counter : option ptr
}.

Definition ptr_eqb (p : option ptr) (a : ptr) : bool :=
  match p with
  | Some b => b =? a
  | None => false
  end.

(** [node->next] for the node in front of [rest]. *)
Definition next_of (hd : ptr) (rest : list PROG_LINE) : ptr :=
  match rest with
  | [] => hd
  | l :: _ => addr l
  end.

Section Listing.

(** [show_stmt] of the syntax module, and whether [fprintf] to the
    output stream succeeds. *)
Variable show_stmt : STMT -> string.
Variable fprintf_ok : bool.

Definition marker : string := String "-" (String "-" (String ">" (String (ascii_of_N 10) EmptyString))).

Fixpoint list_loop (hd : ptr) (ctr : option ptr) (ls : list PROG_LINE)
  : string * Z :=
  match ls with
  | [] =>
      if ptr_eqb ctr hd then
        if fprintf_ok then (marker, 0) else (EmptyString, -1)
      else (EmptyString, 0)
  | l :: rest =>
      if ptr_eqb ctr (addr l) && negb fprintf_ok then (EmptyString, -1)
      else
        let '(out, r) := list_loop hd ctr rest in
        ((if ptr_eqb ctr (addr l) then marker else EmptyString)
           ++ show_stmt (content l) ++ out, r)%string
  end.

Definition prog_list (pstorage : option PROG_STORE) : string * Z :=
  match pstorage with
  | None => (EmptyString, 0)
  | Some s => list_loop (head s) (counter s) (lines s)
  end.

End Listing.

(** The search of [prog_insert]: the statement replaces that of the
    line with its number, or a new node, at the address [new], is linked
    in before the first line with a larger number, or before the head. *)
Fixpoint insert_loop (stmt : STMT) (new : ptr) (ls : list PROG_LINE)
  : list PROG_LINE :=
  match ls with
  | [] => [ {| addr := new; content := stmt |} ]
  | l :: rest =>
      if lineno (content l) =? lineno stmt then
        {| addr := addr l; content := stmt |} :: rest
      else if lineno (content l) >? lineno stmt then
        {| addr := new; content := stmt |} :: l :: rest
      else l :: insert_loop stmt new rest
  end.

Section Allocation.

(** The addresses [malloc] returns to [prog_insert]: [head_addr] for the
    dummy head when the store is created, [line_addr] for the node of a
    new line.  [malloc] is taken to succeed, as the source takes it. *)
Variable head_addr line_addr : ptr.

(** The store [prog_insert] creates on first use. *)
Definition new_store : PROG_STORE :=
  {| head := head_addr; lines := []; counter := None |}.

Definition prog_insert (pstorage : option PROG_STORE) (stmt : STMT)
  : option PROG_STORE * Z :=
  let s := match pstorage with None => new_store | Some s => s end in
  if lineno stmt <=? 0 then (Some s, -1)
  else
    (Some {| head := head s;
             lines := insert_loop stmt line_addr (lines s);
             counter := counter s |},
     0).

End Allocation.

(** [lineno >= min && lineno <= max]. *)
Definition in_range (min max : Z) (l : PROG_LINE) : bool :=
  (lineno (content l) >=? min) && (lineno (content l) <=? max).

(** The loop of [prog_delete]: the lines kept and the program counter. *)
Fixpoint delete_loop (min max : Z) (hd : ptr) (ctr : option ptr)
    (ls : list PROG_LINE) : list PROG_LINE * option ptr :=
  match ls with
  | [] => ([], ctr)
  | l :: rest =>
      if in_range min max l then
        delete_loop min max hd
          (if ptr_eqb ctr (addr l) then Some (next_of hd rest) else ctr)
          rest
      else
        let '(rest', ctr') := delete_loop min max hd ctr rest in
        (l :: rest', ctr')
  end.

Definition prog_delete (pstorage : option PROG_STORE) (min max : Z)
  : option PROG_STORE * Z :=
  if (min <=? 0) || (max <=? 0) || (max <? min) then (pstorage, -1)
  else
    match pstorage with
    | None => (None, 0)
    | Some s =>
        let '(ls, ctr) := delete_loop min max (head s) (counter s) (lines s) in
        (Some {| head := head s; lines := ls; counter := ctr |}, 0)
    end.

(** The store after an assignment to [pstorage->counter]. *)
Definition with_counter (s : PROG_STORE) (c : option ptr) : PROG_STORE :=
  {| head := head s; lines := lines s; counter := c |}.

Definition prog_reset (pstorage : option PROG_STORE) : option PROG_STORE :=
  match pstorage with
  | None => None
  | Some s => Some (with_counter s (Some (next_of (head s) (lines s))))
  end.

(** The node at an address: the dummy head (whose [content] is null and
    whose [next] is the first line), or a line with what follows it. *)
Inductive node : Type :=
| Head
| Line (l : PROG_LINE) (rest : list PROG_LINE).

Fixpoint find_line (a : ptr) (ls : list PROG_LINE)
  : option (PROG_LINE * list PROG_LINE) :=
  match ls with
  | [] => None
  | l :: rest => if addr l =? a then Some (l, rest) else find_line a rest
  end.

(** Dereferencing a pointer of the store; a null pointer or one to no
    node of the store is a [Fault]. *)
Definition deref (s : PROG_STORE) (p : option ptr) : outcome node :=
  match p with
  | None => Fault
  | Some a =>
      if a =? head s then Ret Head
      else match find_line a (lines s) with
           | Some (l, rest) => Ret (Line l rest)
           | None => Fault
           end
  end.

Definition node_content (n : node) : option STMT :=
  match n with
  | Head => None
  | Line l _ => Some (content l)
  end.

Definition node_next (s : PROG_STORE) (n : node) : ptr :=
  match n with
  | Head => next_of (head s) (lines s)
  | Line _ rest => next_of (head s) rest
  end.

Definition prog_fetch (pstorage : option PROG_STORE) : outcome (option STMT) :=
  match pstorage with
  | None => Ret None
  | Some s =>
      match deref s (counter s) with
      | Ret n => Ret (node_content n)
      | Fault => Fault
      | Exited c => Exited c
      end
  end.

Definition prog_next (pstorage : option PROG_STORE)
  : outcome (option PROG_STORE * option STMT) :=
  match pstorage with
  | None => Ret (None, None)
  | Some s =>
      match counter s with
      | None => Ret (Some s, None)
      | Some c =>
          if negb (c =? head s) then
            match deref s (Some c) with
            | Ret n =>
                let s' := with_counter s (Some (node_next s n)) in
                match deref s' (counter s') with
                | Ret n' => Ret (Some s', node_content n')
                | Fault => Fault
                | Exited e => Exited e
                end
            | Fault => Fault
            | Exited e => Exited e
            end
          else
            match deref s (Some c) with
            | Ret n => Ret (Some s, node_content n)
            | Fault => Fault
            | Exited e => Exited e
            end
      end
  end.

(** The search of [prog_goto]: the first line with that number. *)
Fixpoint goto_loop (n : Z) (ls : list PROG_LINE) : option PROG_LINE :=
  match ls with
  | [] => None
  | l :: rest => if lineno (content l) =? n then Some l else goto_loop n rest
  end.

(** [prog_goto] reads [pstorage->head] without testing [pstorage]. *)
Definition prog_goto (pstorage : option PROG_STORE) (n : Z)
  : outcome (option PROG_STORE * option STMT) :=
  match pstorage with
  | None => Fault
  | Some s =>
      match goto_loop n (lines s) with
      | Some l =>
          Ret (Some (with_counter s (Some (addr l))), Some (content l))
      | None => Ret (Some s, None)
      end
  end.

(** *** Stores as the operations leave them, and where the counter is *)

Definition line_lt (a b : PROG_LINE) : Prop :=
  lineno (content a) < lineno (content b).

(** The addresses of the nodes of a store, the dummy head first. *)
Definition nodes (s : PROG_STORE) : list ptr := head s :: map addr (lines s).

(** Line numbers increase strictly along the list, no two nodes share an
    address, and the counter is null or points to a node of the store. *)
Record wf (s : PROG_STORE) : Prop := {
  wf_sorted : StronglySorted line_lt (lines s);
  wf_nodup : NoDup (nodes s);
  wf_counter :
    match counter s with
    | None => True
    | Some c => In c (nodes s)
    end
}.

Definition store_ok (pstorage : option PROG_STORE) : Prop :=
  match pstorage with
  | None => True
  | Some s => wf s
  end.

(** The position the counter designates: none (a null counter), after
    all statements, or just before a line; [Stray] is a counter that
    points to no node of the store. *)
Inductive position : Type :=
| Unset
| AtEnd
| Before (l : PROG_LINE)
| Stray.

Definition cursor (s : PROG_STORE) : position :=
  match counter s with
  | None => Unset
  | Some a =>
      if a =? head s then AtEnd
      else match find_line a (lines s) with
           | Some (l, _) => Before l
           | None => Stray
           end
  end.

(** What [malloc] guarantees of the address of a new node: no node in
    use is at that address. *)
Definition fresh_for (pstorage : option PROG_STORE)
    (head_addr line_addr : ptr) : Prop :=
  match pstorage with
  | None => line_addr <> head_addr
  | Some s => ~ In line_addr (nodes s)
  end.

Definition position_of (pstorage : option PROG_STORE) : position :=
  match pstorage with
  | None => Unset
  | Some s => cursor s
  end.

(** The lines [prog_delete] keeps are those that are not in the range. *)
Definition kept (min max : Z) (l : PROG_LINE) : bool :=
  negb (in_range min max l).

(** The node of the first of the lines whose number exceeds [max], the
    head when there is none. *)
Definition target (max : Z) (hd : ptr) (ls : list PROG_LINE) : ptr :=
  match find (fun x => max <? lineno (content x)) ls with
  | Some x => addr x
  | None => hd
  end.

(** The position just before the first of the lines whose number exceeds
    [max], the end when there is none. *)
Definition first_after (max : Z) (ls : list PROG_LINE) : position :=
  match find (fun x => max <? lineno (content x)) ls with
  | Some x => Before x
  | None => AtEnd
  end.

(** The stores the operations of the module lead to, from the start of
    the program on. *)
Inductive reachable : option PROG_STORE -> Prop :=
| reach_start : reachable None
| reach_insert ps head_addr line_addr stmt :
    reachable ps -> fresh_for ps head_addr line_addr ->
    reachable (fst (prog_insert head_addr line_addr ps stmt))
| reach_delete ps min max :
    reachable ps -> reachable (fst (prog_delete ps min max))
| reach_reset ps :
    reachable ps -> reachable (prog_reset ps)
| reach_next ps ps' st :
    reachable ps -> prog_next ps = Ret (ps', st) -> reachable ps'
| reach_goto ps n ps' st :
    reachable ps -> prog_goto ps n = Ret (ps', st) -> reachable ps'.

(** *** A sample program *)

Definition stmt_at (n : Z) : STMT := {| lineno := n; stmt_text := "stmt" |}.

Definition line_20 : PROG_LINE := {| addr := 3; content := stmt_at 20 |}.

(** Lines 10, 20 and 30, the counter before line 20. *)
Definition three_lines : PROG_STORE :=
  {| head := 1;
     lines := [ {| addr := 2; content := stmt_at 10 |};
                line_20;
                {| addr := 4; content := stmt_at 30 |} ];
     counter := Some 3 |}.

(** *** Using the store *)

(** The statement [prog_goto] returns. *)
Definition goto_result (pstorage : option PROG_STORE) (n : Z) : option STMT :=
  match prog_goto pstorage n with
  | Ret (_, r) => r
  | _ => None
  end.

(** The run of a program: the statement [prog_fetch] returns, then
    [prog_next], until [prog_fetch] returns none.  The run returns the
    statements fetched, in order, when [prog_fetch] has returned none;
    it ends as the call that does not return ends; it is [None] when
    [fuel] rounds have not brought it to its end. *)
Fixpoint walk (fuel : nat) (pstorage : option PROG_STORE)
  : option (outcome (list STMT)) :=
  match fuel with
  | O => None
  | S f =>
      match prog_fetch pstorage with
      | Ret None => Some (Ret [])
      | Ret (Some st) =>
          match prog_next pstorage with
          | Ret (pstorage', _) =>
              match walk f pstorage' with
              | Some (Ret sts) => Some (Ret (st :: sts))
              | Some Fault => Some Fault
              | Some (Exited e) => Some (Exited e)
              | None => None
              end
          | Fault => Some Fault
          | Exited e => Some (Exited e)
          end
      | Fault => Some Fault
      | Exited e => Some (Exited e)
      end
  end.

(** What [show_stmt] prints for the lines of a list, one after the
    other. *)
Fixpoint shows (show_stmt : STMT -> string) (ls : list PROG_LINE) : string :=
  match ls with
  | [] => EmptyString
  | l :: rest => (show_stmt (content l) ++ shows show_stmt rest)%string
  end.

End Prog.

(** ** The jobs module *)

Module Jobs.

Local Open Scope list_scope.

(** Modelled from the spec: [PIPELINE] is declared in mush.h, which is
    not part of the sources at hand.  A pipeline is a list of commands,
    each a list of arguments, with an optional input file, an optional
    output file and the capture flag. *)
Record PIPELINE : Type := {
  commands : list (list string);
  input_file : option string;
  output_file : option string;
  capture_output : bool
}.

(** [JOB_NODE].  [status] points to one of the literals "new",
    "running", "completed", "aborted", "canceled"; [job_output] is null
    or the heap block that holds the captured output. *)
Record JOB_NODE : Type := {
  job_id : Z;
  pgid : Z;
  status : string;
  exit_status : Z;
  readfd : Z;
  pipeline : option PIPELINE;
  job_output : option (list byte)
}.

(** [JOB_TABLE]: the nodes linked after the dummy head. *)
Definition JOB_TABLE : Type := list JOB_NODE.

(** *** Wait status ([<sys/wait.h>] of the GNU C library) *)

Definition WEXITSTATUS (s : Z) : Z := Z.shiftr (Z.land s 65280) 8.
Definition WTERMSIG (s : Z) : Z := Z.land s 127.
Definition signed_char (z : Z) : Z := (z + 128) mod 256 - 128.
Definition WIFEXITED (s : Z) : Z := if WTERMSIG s =? 0 then 1 else 0.
Definition WIFSIGNALED (s : Z) : Z :=
  if 0 <? Z.shiftr (signed_char (Z.land s 127 + 1)) 1 then 1 else 0.
Definition WIFSTOPPED (s : Z) : Z := if Z.land s 255 =? 127 then 1 else 0.

(** *** Status changes *)

(** The node after [target->status = st; target->exit_status = es]. *)
Definition with_status (j : JOB_NODE) (st : string) (es : Z) : JOB_NODE :=
  {| job_id := job_id j; pgid := pgid j; status := st;
     exit_status := es; readfd := readfd j;
     pipeline := pipeline j; job_output := job_output j |}.

Fixpoint change_status_loop (pid : Z) (st : string) (es : Z)
    (t : list JOB_NODE) : list JOB_NODE * Z :=
  match t with
  | [] => ([], -1)
  | j :: rest =>
      if pgid j =? pid then (with_status j st es :: rest, 0)
      else
        let '(rest', r) := change_status_loop pid st es rest in
        (j :: rest', r)
  end.

Definition change_job_status (jtable : option JOB_TABLE) (pid : Z)
    (st : string) (es : Z) : option JOB_TABLE * Z :=
  match jtable with
  | None => (None, -1)
  | Some t =>
      let '(t', r) := change_status_loop pid st es t in (Some t', r)
  end.

(** The loop [while((pid = waitpid(-1, &chstatus, 0)) <= 0);] over the
    successive answers of [waitpid], each a pid and a status; [None]
    when no answer ends the loop. *)
Fixpoint reap_loop (answers : list (Z * Z)) : option (Z * Z) :=
  match answers with
  | [] => None
  | (pid, chstatus) :: more =>
      if pid <=? 0 then reap_loop more else Some (pid, chstatus)
  end.

(** [child_handler], run with all signals blocked. *)
Definition child_handler (jtable : option JOB_TABLE)
    (answers : list (Z * Z)) : option (option JOB_TABLE) :=
  match reap_loop answers with
  | None => None
  | Some (pid, chstatus) =>
      if 0 <? pid then
        if negb (Z.lor (Z.lor (WIFSTOPPED chstatus) (WIFSIGNALED chstatus))
                       (WIFEXITED chstatus) =? 0) then
          let code := WEXITSTATUS chstatus in
          if code =? EXIT_SUCCESS then
            Some (fst (change_job_status jtable pid "completed" chstatus))
          else if code =? SIGKILL then
            Some (fst (change_job_status jtable pid "canceled" chstatus))
          else
            Some (fst (change_job_status jtable pid "aborted" chstatus))
        else Some jtable
      else Some jtable
  end.

(** The status the switch of [child_handler] selects. *)
Definition status_for (chstatus : Z) : string :=
  if WEXITSTATUS chstatus =? EXIT_SUCCESS then "completed"
  else if WEXITSTATUS chstatus =? SIGKILL then "canceled"
  else "aborted".

(** *** Captured output *)

Definition NUL : byte := x00.

(** The bytes of a block that precede its first NUL, and whether there
    is one. *)
Fixpoint until_nul (b : list byte) : list byte * bool :=
  match b with
  | [] => ([], false)
  | c :: rest =>
      if Byte.eqb c NUL then ([], true)
      else let '(p, found) := until_nul rest in (c :: p, found)
  end.

Definition nul_free (b : list byte) : Prop := Forall (fun c => c <> NUL) b.

(** The C string a block holds; reading a block without NUL runs past
    its end. *)
Definition c_str (b : list byte) : outcome (list byte) :=
  let '(p, found) := until_nul b in
  if found then Ret p else Fault.

(** [strncpy(dst, src, n)] into a block of [n] bytes, for a source that
    holds at least [n] bytes: the bytes before the first NUL are copied
    and the block is filled up with NULs. *)
Definition strncpy (src : list byte) (n : nat) : list byte :=
  let p := firstn n (fst (until_nul src)) in
  p ++ repeat NUL (n - List.length p).

Section Heap.

(** What an uninitialised byte of a block holds, by its offset. *)
Variable garbage : nat -> byte.

(** [realloc(block, size)]. *)
Definition realloc (block : list byte) (size : nat) : list byte :=
  firstn size block
    ++ map garbage (seq (List.length block) (size - List.length block)).

(** [strcat(dst, src)]. *)
Definition strcat (dst src : list byte) : outcome (list byte) :=
  match c_str dst, c_str src with
  | Ret d, Ret s =>
      let data := s ++ [NUL] in
      if (List.length d + List.length data <=? List.length dst)%nat then
        Ret (d ++ data ++ skipn (List.length d + List.length data) dst)
      else Fault
  | _, _ => Fault
  end.

(** The node after an assignment to [job->job_output]. *)
Definition with_output (j : JOB_NODE) (o : option (list byte)) : JOB_NODE :=
  {| job_id := job_id j; pgid := pgid j; status := status j;
     exit_status := exit_status j; readfd := readfd j;
     pipeline := pipeline j; job_output := o |}.

(** [read_output_capture]; [avail] are the bytes the calls of [read]
    deliver before one of them returns no byte.  The stream of
    [open_memstream] then holds [avail] and [len] is their number. *)
Definition read_output_capture (job : JOB_NODE) (avail : list byte)
  : outcome (JOB_NODE * Z) :=
  if readfd job =? -1 then Ret (job, -1)
  else
    let len := List.length avail in
    let result := strncpy (avail ++ [NUL]) len in
    if (0 <? len)%nat then
      match job_output job with
      | Some old =>
          match c_str old with
          | Ret o =>
              match strcat (realloc old (1 + len + List.length o)) result with
              | Ret block => Ret (with_output job (Some block), 0)
              | Fault => Fault
              | Exited e => Exited e
              end
          | Fault => Fault
          | Exited e => Exited e
          end
      | None => Ret (with_output job (Some result), 0)
      end
    else Ret (job, 0).

(** [io_handler], run with all signals blocked; [pending fd] are the
    bytes that can be read from [fd] at that time. *)
Fixpoint io_loop (pending : Z -> list byte) (t : list JOB_NODE)
  : outcome (list JOB_NODE) :=
  match t with
  | [] => Ret []
  | j :: rest =>
      match read_output_capture j (pending (readfd j)) with
      | Ret (j', _) =>
          match io_loop pending rest with
          | Ret rest' => Ret (j' :: rest')
          | Fault => Fault
          | Exited e => Exited e
          end
      | Fault => Fault
      | Exited e => Exited e
      end
  end.

Definition io_handler (jtable : option JOB_TABLE)
    (pending : Z -> list byte) : outcome (option JOB_TABLE) :=
  match jtable with
  | None => Fault
  | Some t =>
      match io_loop pending t with
      | Ret t' => Ret (Some t')
      | Fault => Fault
      | Exited e => Exited e
      end
  end.

End Heap.

Fixpoint get_output_loop (jobid : Z) (t : list JOB_NODE)
  : option (list byte) :=
  match t with
  | [] => None
  | j :: rest =>
      if job_id j =? jobid then job_output j else get_output_loop jobid rest
  end.

(** [jobs_get_output]: the pointer stored in the job, that is the block
    it points to. *)
Definition jobs_get_output (jtable : option JOB_TABLE) (jobid : Z)
  : option (list byte) :=
  match jtable with
  | None => None
  | Some t => get_output_loop jobid t
  end.

(** *** Poll, cancel, expunge, fini *)

Definition terminated (st : string) : bool :=
  String.eqb st "completed" || String.eqb st "aborted"
  || String.eqb st "canceled".

Fixpoint poll_loop (jobid : Z) (t : list JOB_NODE) : Z :=
  match t with
  | [] => -1
  | j :: rest =>
      if job_id j =? jobid then
        if terminated (status j) then exit_status j else -1
      else poll_loop jobid rest
  end.

Definition jobs_poll (jtable : option JOB_TABLE) (jobid : Z) : Z :=
  match jtable with
  | None => -1
  | Some t => poll_loop jobid t
  end.

(** The status and the exit status of the job with an id. *)
Fixpoint status_of (jobid : Z) (t : list JOB_NODE) : option (string * Z) :=
  match t with
  | [] => None
  | j :: rest =>
      if job_id j =? jobid then Some (status j, exit_status j)
      else status_of jobid rest
  end.

Section Waiting.

Variable garbage : nat -> byte.

(** A signal the process handles: SIGCHLD with the answers [waitpid]
    gives to that run of [child_handler], SIGIO with the bytes that can
    be read from each descriptor during that run of [io_handler]. *)
Inductive signal : Type :=
| SIGCHLD (answers : list (Z * Z))
| SIGIO (pending : Z -> list byte).

(** The run of the handler of a signal; [None] when the handler does not
    return ([waitpid] never answers with a child). *)
Definition handle (jtable : option JOB_TABLE) (sg : signal)
  : option (outcome (option JOB_TABLE)) :=
  match sg with
  | SIGCHLD answers =>
      match child_handler jtable answers with
      | Some jtable' => Some (Ret jtable')
      | None => None
      end
  | SIGIO pending => Some (io_handler garbage jtable pending)
  end.

Fixpoint handle_all (jtable : option JOB_TABLE) (sgs : list signal)
  : option (outcome (option JOB_TABLE)) :=
  match sgs with
  | [] => Some (Ret jtable)
  | sg :: more =>
      match handle jtable sg with
      | Some (Ret jtable') => handle_all jtable' more
      | other => other
      end
  end.

(** One turn of the loop of [jobs_wait] in which the job is found not to
    have terminated.  [jobs_wait] blocks no signal: the handlers can run
    between the test of the status and the call of [sigsuspend]
    ([racing]).  The mask given to [sigsuspend] lets SIGCHLD through
    only, so that the call returns after a run of [child_handler], to
    which [waitpid] gives the answers [woken]; it does not return when
    there is none.  [following] are the handlers that run after the
    return of [sigsuspend] and before the next test. *)
Record round : Type := {
  racing : list signal;
  woken : option (list (Z * Z));
  following : list signal
}.

(** The loop of [jobs_wait], from the test of the status on; [None] when
    the call does not return: it stays in [sigsuspend], or a handler
    does not return. *)
Fixpoint wait_loop (jobid : Z) (jtable : option JOB_TABLE)
    (rounds : list round) : option (outcome (option JOB_TABLE * Z)) :=
  match jtable with
  | None => Some (Ret (None, -1))
  | Some t =>
      match status_of jobid t with
      | None => Some (Ret (jtable, -1))
      | Some (st, es) =>
          if terminated st then Some (Ret (jtable, es))
          else
            match rounds with
            | [] => None
            | r :: more =>
                match handle_all jtable (racing r) with
                | Some (Ret jtable1) =>
                    match woken r with
                    | None => None
                    | Some answers =>
                        match handle_all jtable1
                                (SIGCHLD answers :: following r) with
                        | Some (Ret jtable2) => wait_loop jobid jtable2 more
                        | Some Fault => Some Fault
                        | Some (Exited e) => Some (Exited e)
                        | None => None
                        end
                    end
                | Some Fault => Some Fault
                | Some (Exited e) => Some (Exited e)
                | None => None
                end
            end
      end
  end.

(** [jobs_wait]; [jtable] is the table at the first test of the status,
    and [rounds] tell what signals are handled from then on. *)
Definition jobs_wait (jtable : option JOB_TABLE) (jobid : Z)
    (rounds : list round) : option (outcome (option JOB_TABLE * Z)) :=
  wait_loop jobid jtable rounds.

End Waiting.

Section System.

(** The answers of [kill(pid, sig)] and of [close(fd)]. *)
Variable kill : Z -> Z -> Z.
Variable close : Z -> Z.

Fixpoint cancel_loop (jobid : Z) (t : list JOB_NODE) : Z :=
  match t with
  | [] => -1
  | j :: rest =>
      if job_id j =? jobid then
        if kill (- pgid j) SIGKILL <? 0 then -1 else 0
      else cancel_loop jobid rest
  end.

(** [jobs_cancel] changes nothing in the table: a job record has no
    field that remembers the request.  After [jobs_poll] it reads
    [jtable->head] without testing [jtable]. *)
Definition jobs_cancel (jtable : option JOB_TABLE) (jobid : Z) : outcome Z :=
  if negb (jobs_poll jtable jobid =? -1) then Ret (-1)
  else
    match jtable with
    | None => Fault
    | Some t => Ret (cancel_loop jobid t)
    end.

Fixpoint expunge_loop (jobid : Z) (t : list JOB_NODE)
  : outcome (list JOB_NODE * Z) :=
  match t with
  | [] => Ret ([], -1)
  | j :: rest =>
      if job_id j =? jobid then
        if negb (readfd j =? -1) && (close (readfd j) <? 0)
        then Exited EXIT_FAILURE
        else Ret (rest, 0)
      else
        match expunge_loop jobid rest with
        | Ret (rest', r) => Ret (j :: rest', r)
        | Fault => Fault
        | Exited e => Exited e
        end
  end.

Definition jobs_expunge (jtable : option JOB_TABLE) (jobid : Z)
  : outcome (option JOB_TABLE * Z) :=
  if jobs_poll jtable jobid =? -1 then Ret (jtable, -1)
  else
    match jtable with
    | None => Fault
    | Some t =>
        match expunge_loop jobid t with
        | Ret (t', r) => Ret (Some t', r)
        | Fault => Fault
        | Exited e => Exited e
        end
    end.

(** [jobs_fini].  The loop starts at the first job.  When that job has
    been expunged its node is unlinked and freed, and the step
    [current_job = current_job->next] reads the freed node: the walk
    cannot go on from there.  The table itself is freed, and [0]
    returned, only when the loop is left at the head, that is for a
    table without jobs. *)
Definition jobs_fini (jtable : option JOB_TABLE)
  : outcome (option JOB_TABLE * Z) :=
  match jtable with
  | None => Ret (None, -1)
  | Some [] => Ret (None, 0)
  | Some (current_job :: _) =>
      let canceled :=
        if jobs_poll jtable (job_id current_job) <? 0
        then jobs_cancel jtable (job_id current_job)
        else Ret 0 in
      match canceled with
      | Ret r =>
          if r <? 0 then Ret (jtable, -1)
          else
            match jobs_expunge jtable (job_id current_job) with
            | Ret (jtable', r') =>
                if r' <? 0 then Ret (jtable', -1) else Fault
            | Fault => Fault
            | Exited e => Exited e
            end
      | Fault => Fault
      | Exited e => Exited e
      end
  end.

End System.

(** *** Launching a pipeline *)

Definition INT_MAX : Z := 2 ^ 31 - 1.

(** Two's complement reduction of a mathematical integer to an [int]. *)
Definition wrap_int (z : Z) : Z := (z + 2 ^ 31) mod 2 ^ 32 - 2 ^ 31.

(** The record [jobs_run] links in for a new job: it has gone from
    "new" to "running" by the time signals are unblocked.
    [copy_pipeline] makes a deep copy, so the record holds the pipeline
    it was given. *)
Definition new_job (jid pid fd : Z) (pline : PIPELINE) : JOB_NODE :=
  {| job_id := jid; pgid := pid; status := "running"; exit_status := -1;
     readfd := fd; pipeline := Some pline; job_output := None |}.

Section Launch.

Variable close : Z -> Z.

(** [jobs_run] with the counter [jid], in the process that calls it.
    [cofd] is what [pipe] leaves in the array and [fork_pid] what [fork]
    returns.  Where [fork] returns 0 the process is the leader, which
    creates the stages and ends by [exit]: there the call does not
    return, and [leader_code] is the code the leader exits with.
    Everywhere else, a negative [fork_pid] included, the process goes on
    as the parent.  The result is the table, the counter and the value
    returned. *)
Definition jobs_run (cofd : Z * Z) (fork_pid leader_code : Z)
    (jtable : option JOB_TABLE) (jid : Z) (pline : option PIPELINE)
  : outcome (option JOB_TABLE * Z * Z) :=
  match pline with
  | None => Ret (jtable, jid, -1)
  | Some pl =>
      if fork_pid =? 0 then Exited leader_code
      else if close (snd cofd) <? 0 then Exited EXIT_FAILURE
      else
        let fd :=
          if capture_output pl then Ret (fst cofd)
          else if close (fst cofd) <? 0 then Exited EXIT_FAILURE
          else Ret (-1) in
        match fd with
        | Ret fd =>
            match jtable with
            | None => Fault
            | Some t =>
                Ret (Some (t ++ [new_job jid fork_pid fd pl]),
                     wrap_int (jid + 1), jid)
            end
        | Fault => Fault
        | Exited e => Exited e
        end
  end.

End Launch.

(** *** Listing the jobs *)

Section Showing.

(** [show_pipeline] of the syntax module: the text it prints. *)
Variable show_pipeline : option PIPELINE -> string.

Definition TAB : string := String (ascii_of_N 9) EmptyString.
Definition NEWLINE : string := String (ascii_of_N 10) EmptyString.

(** The line [jobs_show] prints for a job: the formats [%d], [%d] and
    [%s], each followed by a TAB, then the pipeline and a new line. *)
Definition show_job (j : JOB_NODE) : string :=
  (ltoa (job_id j) ++ TAB ++ ltoa (pgid j) ++ TAB ++ status j ++ TAB
   ++ show_pipeline (pipeline j) ++ NEWLINE)%string.

Fixpoint show_loop (t : list JOB_NODE) : string :=
  match t with
  | [] => EmptyString
  | j :: rest => (show_job j ++ show_loop rest)%string
  end.

(** [jobs_show]: the text printed and the value returned. *)
Definition jobs_show (jtable : option JOB_TABLE) : string * Z :=
  match jtable with
  | None => (EmptyString, -1)
  | Some t => (show_loop t, 0)
  end.

End Showing.

(** The job ids of a table, in the order of the list. *)
Definition ids (t : list JOB_NODE) : list Z := map job_id t.

(** The ids of the table increase along the list, and all of them are
    ids the counter [jid] has passed. *)
Definition ids_ok (t : list JOB_NODE) (jid : Z) : Prop :=
  StronglySorted Z.lt (ids t) /\ Forall (fun i => 0 <= i < jid) (ids t).

(** *** A sample job *)

(** Job 0, running, with leader 100 and the capture pipe on descriptor 5. *)
Definition running_job : JOB_NODE :=
  {| job_id := 0; pgid := 100; status := "running"; exit_status := -1;
     readfd := 5; pipeline := None; job_output := None |}.

(** A second job, started after it, that captures nothing. *)
Definition second_job : JOB_NODE :=
  {| job_id := 1; pgid := 102; status := "running"; exit_status := -1;
     readfd := -1; pipeline := None; job_output := None |}.

(** A system on which [kill] and [close] succeed. *)
Definition kill_ok (pid sig : Z) : Z := 0.
Definition close_ok (fd : Z) : Z := 0.

End Jobs.

(** * Properties *)

(** ** The data store *)

Module StoreFacts.

Lemma digit_char_spec d :
  0 <= d <= 9 ->
  isdigit (digit_char d) = true /\ digit_val (digit_char d) = d.
Proof.
  intros H.
  assert (E : d = 0 \/ d = 1 \/ d = 2 \/ d = 3 \/ d = 4 \/ d = 5 \/ d = 6
              \/ d = 7 \/ d = 8 \/ d = 9) by lia.
  repeat (destruct E as [E | E]; [subst d; split; reflexivity | ]).
  subst d; split; reflexivity.
Qed.

Lemma mod10_range n : 0 <= n mod 10 <= 9.
Proof. pose proof (Z.mod_pos_bound n 10); lia. Qed.

Lemma pow10_step k n :
  0 <= k -> 0 <= n < 10 ^ (k + 1) -> 0 <= n / 10 < 10 ^ k.
Proof.
  intros Hk [H0 H1]. rewrite Z.pow_add_r in H1 by lia.
  change (10 ^ 1) with 10 in H1. split.
  - apply Z.div_pos; lia.
  - apply Z.div_lt_upper_bound; lia.
Qed.

Lemma small_digit n : 0 <= n -> n / 10 = 0 -> n mod 10 = n.
Proof. intros H0 H. pose proof (Z.div_mod n 10). lia. Qed.

Lemma utoa_scan f : forall n acc,
  0 <= n < 10 ^ (Z.of_nat f + 1) ->
  scan_digits 0 (utoa f n acc) = scan_digits n acc.
Proof.
  induction f as [| f IH]; intros n acc Hn.
  - change (10 ^ (Z.of_nat 0 + 1)) with 10 in Hn.
    assert (Hq : n / 10 = 0) by (apply Z.div_small; lia).
    cbn [utoa scan_digits].
    destruct (digit_char_spec (n mod 10) (mod10_range n)) as [-> ->].
    rewrite small_digit by lia. reflexivity.
  - cbn [utoa].
    destruct (n / 10 =? 0) eqn:E.
    + apply Z.eqb_eq in E. cbn [scan_digits].
      destruct (digit_char_spec (n mod 10) (mod10_range n)) as [-> ->].
      rewrite small_digit by lia. reflexivity.
    + rewrite IH.
      * cbn [scan_digits].
        destruct (digit_char_spec (n mod 10) (mod10_range n)) as [-> ->].
        f_equal. pose proof (Z.div_mod n 10). lia.
      * apply pow10_step; [lia |].
        replace (Z.of_nat f + 1 + 1) with (Z.of_nat (S f) + 1) by lia.
        exact Hn.
Qed.

Lemma utoa_head f : forall n acc,
  exists c r, utoa f n acc = String c r /\ isdigit c = true.
Proof.
  induction f as [| f IH]; intros n acc.
  - exists (digit_char (n mod 10)), acc. split; [reflexivity |].
    apply digit_char_spec, mod10_range.
  - cbn [utoa]. destruct (n / 10 =? 0).
    + exists (digit_char (n mod 10)), acc. split; [reflexivity |].
      apply digit_char_spec, mod10_range.
    + apply IH.
Qed.

Lemma isdigit_spec c : isdigit c = true <-> 48 <= code c <= 57.
Proof. unfold isdigit. rewrite andb_true_iff, !Z.leb_le. tauto. Qed.

Lemma digit_not_space c : isdigit c = true -> isspace c = false.
Proof.
  intros H. apply isdigit_spec in H. unfold isspace.
  rewrite orb_false_iff, andb_false_iff, Z.eqb_neq, !Z.leb_gt. lia.
Qed.

Lemma digit_not_sign c :
  isdigit c = true -> Ascii.eqb c "-" = false /\ Ascii.eqb c "+" = false.
Proof.
  intros H. split; apply Ascii.eqb_neq; intros ->; discriminate H.
Qed.

(** On a text that starts with a digit [strtol] converts from its first
    character on. *)
Lemma strtol_digits c r :
  isdigit c = true ->
  strtol (String c r) =
  (clamp_long (fst (scan_digits 0 (String c r))),
   snd (scan_digits 0 (String c r))).
Proof.
  intros H. unfold strtol, strtol_sign, strtol_convert. cbn [skip_space].
  rewrite (digit_not_space c H).
  destruct (digit_not_sign c H) as [-> ->]. rewrite H.
  destruct (scan_digits 0 (String c r)); reflexivity.
Qed.

Lemma strtol_minus c r :
  isdigit c = true ->
  strtol (String "-"%char (String c r)) =
  (clamp_long (- fst (scan_digits 0 (String c r))),
   snd (scan_digits 0 (String c r))).
Proof.
  intros H. unfold strtol, strtol_sign, strtol_convert.
  change (skip_space (String "-"%char (String c r)))
    with (String "-"%char (String c r)).
  cbn beta match. change (Ascii.eqb "-" "-") with true. cbn beta match.
  rewrite H. destruct (scan_digits 0 (String c r)); reflexivity.
Qed.

Lemma decimal_bound n : 0 <= n -> n < 10 ^ (Z.of_nat (Z.to_nat (Z.log2 n)) + 1).
Proof.
  intros H. rewrite Z2Nat.id by apply Z.log2_nonneg.
  destruct (Z.eq_dec n 0) as [-> | Hn]; [reflexivity |].
  destruct (Z.log2_spec n) as [_ Hlt]; [lia |].
  apply Z.lt_le_trans with (1 := Hlt).
  unfold Z.succ. apply Z.pow_le_mono_l. pose proof (Z.log2_nonneg n). lia.
Qed.

Lemma clamp_in_range z : LONG_MIN <= z <= LONG_MAX -> clamp_long z = z.
Proof.
  intros [H1 H2]. unfold clamp_long.
  destruct (z <? LONG_MIN) eqn:E1; [apply Z.ltb_lt in E1; lia |].
  destruct (LONG_MAX <? z) eqn:E2; [apply Z.ltb_lt in E2; lia |].
  reflexivity.
Qed.

(** Reading back what [%ld] prints. *)
Lemma strtol_ltoa k :
  LONG_MIN <= k <= LONG_MAX -> strtol (ltoa k) = (k, EmptyString).
Proof.
  intros Hk. unfold ltoa.
  destruct (k <? 0) eqn:E.
  - apply Z.ltb_lt in E. unfold decimal.
    destruct (utoa_head (Z.to_nat (Z.log2 (- k))) (- k) EmptyString)
      as (c & r & Hs & Hc).
    pose proof (utoa_scan (Z.to_nat (Z.log2 (- k))) (- k) EmptyString) as Hscan.
    rewrite Hs in *. rewrite strtol_minus by exact Hc.
    rewrite Hscan by (split; [lia | apply decimal_bound; lia]).
    cbn [scan_digits fst snd]. rewrite Z.opp_involutive.
    rewrite clamp_in_range by exact Hk. reflexivity.
  - apply Z.ltb_ge in E. unfold decimal.
    destruct (utoa_head (Z.to_nat (Z.log2 k)) k EmptyString)
      as (c & r & Hs & Hc).
    pose proof (utoa_scan (Z.to_nat (Z.log2 k)) k EmptyString) as Hscan.
    rewrite Hs in *. rewrite strtol_digits by exact Hc.
    rewrite Hscan by (split; [lia | apply decimal_bound; lia]).
    cbn [scan_digits fst snd].
    rewrite clamp_in_range by exact Hk. reflexivity.
Qed.

Lemma ltoa_not_empty k : exists c r, ltoa k = String c r.
Proof.
  unfold ltoa. destruct (k <? 0).
  - eauto.
  - unfold decimal.
    destruct (utoa_head (Z.to_nat (Z.log2 k)) k EmptyString) as (c & r & H & _).
    eauto.
Qed.

(** *** The length computed by [store_set_int] *)

Lemma len_loop_zero f len : len_loop f 0 len = Some len.
Proof. destruct f; reflexivity. Qed.

Lemma len_loop_step f t len :
  t <> 0 -> len_loop (S f) t len = len_loop f (Z.quot t 10) (len + 1).
Proof.
  intros H. cbn [len_loop].
  destruct (t =? 0) eqn:E; [apply Z.eqb_eq in E; contradiction | reflexivity].
Qed.

Lemma len_loop_opp f : forall t len, len_loop f (- t) len = len_loop f t len.
Proof.
  induction f as [| f IH]; intros t len.
  - cbn [len_loop]. destruct (Z.eq_dec t 0) as [-> | H]; [reflexivity |].
    destruct (- t =? 0) eqn:E1; [apply Z.eqb_eq in E1; lia |].
    destruct (t =? 0) eqn:E2; [apply Z.eqb_eq in E2; lia | reflexivity].
  - destruct (Z.eq_dec t 0) as [-> | H]; [reflexivity |].
    rewrite !len_loop_step by lia.
    rewrite Z.quot_opp_l by lia. apply IH.
Qed.

Lemma len_loop_length f1 : forall f2 n len acc,
  0 < n < 10 ^ Z.of_nat f1 ->
  n < 10 ^ (Z.of_nat f2 + 1) ->
  len_loop f1 n len =
  Some (len + Z.of_nat (String.length (utoa f2 n acc))
        - Z.of_nat (String.length acc)).
Proof.
  induction f1 as [| f1 IH]; intros f2 n len acc Hn Hn2.
  - change (10 ^ Z.of_nat 0) with 1 in Hn. lia.
  - rewrite len_loop_step by lia.
    rewrite Z.quot_div_nonneg by lia.
    assert (Hq : 0 <= n / 10 < 10 ^ Z.of_nat f1).
    { apply pow10_step; [lia |].
      replace (Z.of_nat f1 + 1) with (Z.of_nat (S f1)) by lia. lia. }
    assert (Hsmall : n / 10 = 0 ->
              len_loop f1 (n / 10) (len + 1) =
              Some (len + Z.of_nat (String.length
                                      (String (digit_char (n mod 10)) acc))
                    - Z.of_nat (String.length acc))).
    { intros ->. rewrite len_loop_zero. f_equal. cbn [String.length]. lia. }
    destruct f2 as [| f2]; cbn [utoa].
    + apply Hsmall. change (10 ^ (Z.of_nat 0 + 1)) with 10 in Hn2.
      apply Z.div_small; lia.
    + destruct (n / 10 =? 0) eqn:E.
      * apply Hsmall. apply Z.eqb_eq in E. exact E.
      * apply Z.eqb_neq in E.
        rewrite (IH f2 (n / 10) (len + 1) (String (digit_char (n mod 10)) acc)).
        -- f_equal. cbn [String.length]. lia.
        -- lia.
        -- apply pow10_step; [lia |].
           replace (Z.of_nat f2 + 1 + 1) with (Z.of_nat (S f2) + 1) by lia.
           lia.
Qed.

Lemma len_loop_decimal n len :
  0 < n <= 2 ^ 63 ->
  len_loop 64 n len = Some (len + Z.of_nat (String.length (decimal n))).
Proof.
  intros Hn. unfold decimal.
  rewrite (len_loop_length 64 (Z.to_nat (Z.log2 n)) n len EmptyString).
  - f_equal. cbn [String.length]. lia.
  - assert (2 ^ 63 < 10 ^ Z.of_nat 64) by reflexivity. lia.
  - apply decimal_bound. lia.
Qed.

Lemma wrap_long_opp v :
  LONG_MIN <= v < 0 ->
  wrap_long (- v) = - v \/ wrap_long (- v) = v /\ v = LONG_MIN.
Proof.
  intros [H1 H2]. unfold wrap_long, LONG_MIN in *.
  destruct (Z.eq_dec v (- 2 ^ 63)) as [-> | Hne].
  - right. split; reflexivity.
  - left. rewrite Z.mod_small; lia.
Qed.

(** The length computed is the number of characters of the text and
    one more. *)
Lemma int_len_exact v :
  LONG_MIN <= v <= LONG_MAX ->
  int_len v = Some (Z.of_nat (String.length (ltoa v)) + 1).
Proof.
  intros Hv. unfold int_len, ltoa.
  destruct (v =? 0) eqn:E0.
  - apply Z.eqb_eq in E0. subst v. reflexivity.
  - apply Z.eqb_neq in E0. destruct (v <? 0) eqn:E1.
    + apply Z.ltb_lt in E1.
      assert (Hl : len_loop 64 (wrap_long (- v)) 1 =
                   Some (1 + Z.of_nat (String.length (decimal (- v))))).
      { destruct (wrap_long_opp v) as [-> | [-> Hmin]]; [lia | |].
        - apply len_loop_decimal. unfold LONG_MIN in Hv. lia.
        - rewrite <- (len_loop_opp 64 v 1).
          apply len_loop_decimal. unfold LONG_MIN in Hv. lia. }
      rewrite Hl. f_equal. cbn [String.length]. lia.
    + apply Z.ltb_ge in E1.
      rewrite len_loop_decimal by (unfold LONG_MAX in Hv; lia).
      f_equal.
Qed.

(** [sprintf] stores one byte more than the block has. *)
Lemma make_valcpy_overrun v :
  LONG_MIN <= v <= LONG_MAX -> make_valcpy v = Some Fault.
Proof.
  intros Hv. unfold make_valcpy. rewrite int_len_exact by exact Hv.
  unfold sprintf_ld_c, sprintf_stored.
  replace (_ <? _) with true by (symmetry; apply Z.ltb_lt; lia).
  reflexivity.
Qed.

(** Whatever the length loop computes, the text is not stored without an
    overrun: the call gives up or writes past the block. *)
Lemma make_valcpy_never_stores v t : make_valcpy v <> Some (Ret (Some t)).
Proof.
  unfold make_valcpy. destruct (int_len v) as [len |]; [| discriminate].
  unfold sprintf_ld_c, sprintf_stored.
  destruct (len <? _) eqn:E1; [discriminate |].
  destruct (_ =? len) eqn:E2; cbn [negb]; [| discriminate].
  apply Z.ltb_ge in E1. apply Z.eqb_eq in E2. lia.
Qed.

(** *** Reading a variable that has just been set *)

Lemma get_string_set_loop n v l : get_string_loop n (set_loop n v l) = v.
Proof.
  induction l as [| x l IH]; cbn [set_loop get_string_loop].
  - unfold streq. cbn [var_name var_value]. rewrite String.eqb_refl. reflexivity.
  - destruct (streq n (var_name x)) eqn:E; cbn [get_string_loop var_name var_value];
      rewrite E; [reflexivity | exact IH].
Qed.

Lemma get_int_set_loop n v l :
  get_int_loop n (set_loop n v l) = int_of_value v.
Proof.
  induction l as [| x l IH]; cbn [set_loop get_int_loop].
  - unfold streq. cbn [var_name var_value].
    rewrite String.eqb_refl. reflexivity.
  - destruct (streq n (var_name x)) eqn:E; cbn [get_int_loop var_name var_value];
      rewrite E; [reflexivity | exact IH].
Qed.

Lemma set_int_loop_overrun n k l :
  LONG_MIN <= k <= LONG_MAX -> set_int_loop n k l = Some Fault.
Proof.
  intros Hk. induction l as [| x l IH]; cbn [set_int_loop].
  - rewrite make_valcpy_overrun by exact Hk. reflexivity.
  - destruct (streq n (var_name x)).
    + rewrite make_valcpy_overrun by exact Hk. reflexivity.
    + rewrite IH. reflexivity.
Qed.

(** [store_set_int] returns [0] for no value at all. *)
Lemma set_int_loop_never_stores n k : forall l l',
  set_int_loop n k l <> Some (Ret (l', 0)).
Proof.
  induction l as [| x l IH]; intros l'; cbn [set_int_loop].
  - pose proof (make_valcpy_never_stores k) as Hm.
    destruct (make_valcpy k) as [[[t |] | |] |]; try discriminate.
    exfalso. apply (Hm t). reflexivity.
  - destruct (streq n (var_name x)).
    + pose proof (make_valcpy_never_stores k) as Hm.
      destruct (make_valcpy k) as [[[t |] | |] |]; try discriminate.
      exfalso. apply (Hm t). reflexivity.
    + destruct (set_int_loop n k l) as [[[l0 r0] | |] |] eqn:E;
        try discriminate.
      intros [= <- ->]. apply (IH l0). reflexivity.
Qed.

Lemma int_of_value_ltoa k :
  LONG_MIN <= k <= LONG_MAX -> int_of_value (Some (ltoa k)) = (0, Some k).
Proof.
  intros Hk. unfold int_of_value.
  destruct (ltoa_not_empty k) as (c & r & E).
  pose proof (strtol_ltoa k Hk) as H. rewrite E in *. rewrite H. reflexivity.
Qed.

(** C4 fails on the code for [store_set_int]: for every store, every
    name and every [long], the call writes one byte past the block it
    has allocated for the text, so that no call returns [0].  The block
    has [len] bytes, the characters of the decimal text of the integer
    and one NUL; with the format ["%ld%c"] and the argument ['\0'],
    [sprintf] returns [len] and stores [len + 1] bytes, the NUL of [%c]
    and its own.  The characters that fit are the text that reads back
    as the integer.  The other half of the claim holds: after
    [store_set_string] of a string the variable reads back as that
    string, character for character. *)
Theorem set_int_writes_past_its_block (vs : option VAR_STORE) (n : string)
    (k : Z) (s : string) :
  LONG_MIN <= k <= LONG_MAX ->
  store_set_int vs (Some n) k = Some Fault
  /\ (exists len,
        int_len k = Some len
        /\ snd (sprintf_ld_c k) = len
        /\ sprintf_stored (snd (sprintf_ld_c k)) = len + 1
        /\ int_of_value (Some (fst (sprintf_ld_c k))) = (0, Some k))
  /\ (forall k' vs', store_set_int vs (Some n) k' <> Some (Ret (vs', 0)))
  /\ (exists vs', store_set_string vs (Some n) (Some s) = (vs', 0)
                  /\ store_get_string vs' n = Some s).
Proof.
  intros Hk. split; [| split; [| split]].
  - unfold store_set_int. rewrite set_int_loop_overrun by exact Hk.
    reflexivity.
  - exists (Z.of_nat (String.length (ltoa k)) + 1).
    split; [apply int_len_exact, Hk |].
    split; [reflexivity |]. split; [reflexivity |].
    cbn [sprintf_ld_c fst]. apply int_of_value_ltoa, Hk.
  - intros k' vs'. unfold store_set_int.
    pose proof (set_int_loop_never_stores n k' (initialized vs)) as Hn.
    destruct (set_int_loop n k' (initialized vs)) as [[[l r] | |] |];
      try discriminate.
    intros [= <- ->]. apply (Hn l). reflexivity.
  - exists (Some (set_loop n (Some s) (initialized vs))). split.
    + reflexivity.
    + cbn [store_get_string]. apply get_string_set_loop.
Qed.

Lemma set_int_writes_past_its_block_witness :
  store_set_int None (Some "x"%string) (-42) = Some Fault
  /\ (exists len,
        int_len (-42) = Some len
        /\ snd (sprintf_ld_c (-42)) = len
        /\ sprintf_stored (snd (sprintf_ld_c (-42))) = len + 1
        /\ int_of_value (Some (fst (sprintf_ld_c (-42)))) = (0, Some (-42)))
  /\ (forall k' vs',
        store_set_int None (Some "x"%string) k' <> Some (Ret (vs', 0)))
  /\ (exists vs', store_set_string None (Some "x"%string) (Some "hello"%string)
                    = (vs', 0)
                  /\ store_get_string vs' "x"%string = Some "hello"%string).
Proof.
  apply (set_int_writes_past_its_block None "x"%string (-42) "hello"%string).
  unfold LONG_MIN, LONG_MAX. lia.
Defined.

(** *** The texts [strtol] converts entirely *)

Lemma skip_space_split v :
  exists ws, v = (ws ++ skip_space v)%string /\ all_chars isspace ws = true.
Proof.
  induction v as [| c v IH]; cbn [skip_space].
  - exists EmptyString. split; reflexivity.
  - destruct (isspace c) eqn:E.
    + destruct IH as (ws & Hv & Hws). exists (String c ws). split.
      * cbn [append]. f_equal. exact Hv.
      * cbn [all_chars]. rewrite E, Hws. reflexivity.
    + exists EmptyString. split; reflexivity.
Qed.

Lemma skip_space_app ws rest :
  all_chars isspace ws = true ->
  skip_space (ws ++ rest) = skip_space rest.
Proof.
  induction ws as [| c ws IH]; cbn [all_chars append skip_space]; [reflexivity |].
  intros H. apply andb_true_iff in H. destruct H as [-> H]. apply IH, H.
Qed.

Lemma scan_digits_end s : forall acc,
  snd (scan_digits acc s) = EmptyString <-> all_chars isdigit s = true.
Proof.
  induction s as [| c s IH]; intros acc; cbn [scan_digits all_chars].
  - split; reflexivity.
  - destruct (isdigit c); cbn [andb snd].
    + apply IH.
    + split; discriminate.
Qed.

Lemma int_of_value_zero v :
  fst (int_of_value (Some v)) = 0 <->
  v <> EmptyString /\ snd (strtol v) = EmptyString.
Proof.
  unfold int_of_value. destruct v as [| c r].
  - cbn. split; [discriminate | intros [H _]; contradiction].
  - destruct (strtol (String c r)) as [x e]. cbn [snd].
    destruct e; cbn [fst]; split; try discriminate; auto.
    + intros _. split; [discriminate | reflexivity].
    + intros [_ H]; discriminate H.
Qed.

Lemma strtol_convert_end v neg s2 :
  v <> EmptyString ->
  snd (strtol_convert v neg s2) = EmptyString <->
  s2 <> EmptyString /\ all_chars isdigit s2 = true.
Proof.
  intros Hv. unfold strtol_convert. destruct s2 as [| c r].
  - cbn [snd]. split; [intros H; contradiction | intros [H _]; contradiction].
  - destruct (isdigit c) eqn:Ec.
    + pose proof (scan_digits_end (String c r) 0) as Hend.
      destruct (scan_digits 0 (String c r)) as [x rest]. cbn [snd] in *.
      rewrite Hend. split; [intros H; split; [discriminate | exact H] | tauto].
    + cbn [snd all_chars]. rewrite Ec. cbn [andb].
      split; [intros H; contradiction | intros [_ H]; discriminate].
Qed.

(** The sign found, in terms of a prefix of the text. *)
Lemma strtol_sign_shape s1 :
  let s2 := snd (strtol_sign s1) in
  (s2 <> EmptyString /\ all_chars isdigit s2 = true) <->
  exists sg ds, s1 = (sg ++ ds)%string
    /\ (sg = EmptyString \/ sg = "+"%string \/ sg = "-"%string)
    /\ ds <> EmptyString /\ all_chars isdigit ds = true.
Proof.
  cbv zeta. unfold strtol_sign. destruct s1 as [| c r].
  - cbn [snd]. split.
    + intros [H _]. contradiction.
    + intros (sg & ds & Heq & _ & Hds & _).
      destruct sg; destruct ds; cbn in Heq; try discriminate.
      contradiction.
  - destruct (Ascii.eqb c "-") eqn:Em; [| destruct (Ascii.eqb c "+") eqn:Ep];
      cbn [snd].
    + apply Ascii.eqb_eq in Em. subst c. split.
      * intros [H1 H2]. exists "-"%string, r. cbn [append]. auto.
      * intros (sg & ds & Heq & Hsg & Hds & Hall).
        destruct Hsg as [-> | [-> | ->]]; cbn [append] in Heq.
        -- subst ds. cbn in Hall. discriminate.
        -- discriminate.
        -- injection Heq as <-. auto.
    + apply Ascii.eqb_eq in Ep. subst c. split.
      * intros [H1 H2]. exists "+"%string, r. cbn [append]. auto.
      * intros (sg & ds & Heq & Hsg & Hds & Hall).
        destruct Hsg as [-> | [-> | ->]]; cbn [append] in Heq.
        -- subst ds. cbn in Hall. discriminate.
        -- injection Heq as <-. auto.
        -- discriminate.
    + split.
      * intros [H1 H2]. exists EmptyString, (String c r). cbn [append]. auto.
      * intros (sg & ds & Heq & Hsg & Hds & Hall).
        apply Ascii.eqb_neq in Em, Ep.
        destruct Hsg as [-> | [-> | ->]]; cbn [append] in Heq.
        -- subst ds. auto.
        -- injection Heq as -> _. contradiction.
        -- injection Heq as -> _. contradiction.
Qed.

(** Where [strtol] stops, in terms of the sign and of the digits. *)
Lemma strtol_shape v :
  v <> EmptyString ->
  snd (strtol v) = EmptyString <->
  exists sg ds, skip_space v = (sg ++ ds)%string
    /\ (sg = EmptyString \/ sg = "+"%string \/ sg = "-"%string)
    /\ ds <> EmptyString /\ all_chars isdigit ds = true.
Proof.
  intros Hv. unfold strtol.
  pose proof (strtol_sign_shape (skip_space v)) as Hs. cbv zeta in Hs.
  destruct (strtol_sign (skip_space v)) as [neg s2]. cbn [snd] in Hs.
  rewrite (strtol_convert_end v neg s2 Hv). exact Hs.
Qed.

Lemma all_space_skip ws : all_chars isspace ws = true -> skip_space ws = EmptyString.
Proof.
  induction ws as [| c ws IH]; cbn [all_chars skip_space]; [reflexivity |].
  intros H. apply andb_true_iff in H. destruct H as [-> H]. apply IH, H.
Qed.

Lemma skip_space_signed sg ds :
  (sg = EmptyString \/ sg = "+"%string \/ sg = "-"%string) ->
  ds <> EmptyString -> all_chars isdigit ds = true ->
  skip_space (sg ++ ds) = (sg ++ ds)%string.
Proof.
  intros Hsg Hds Hall. destruct Hsg as [-> | [-> | ->]]; try reflexivity.
  cbn [append]. destruct ds as [| c r]; [contradiction |].
  cbn [all_chars] in Hall. apply andb_true_iff in Hall. destruct Hall as [Hc _].
  cbn [skip_space]. rewrite (digit_not_space c Hc). reflexivity.
Qed.

(** [store_get_int] takes a value for an integer exactly when it is
    such a text. *)
Lemma int_of_value_integer_text v :
  fst (int_of_value (Some v)) = 0 <-> integer_text v.
Proof.
  rewrite int_of_value_zero. split.
  - intros [Hv He]. apply (strtol_shape v Hv) in He.
    destruct He as (sg & ds & Hs & Hsg & Hds & Hall).
    destruct (skip_space_split v) as (ws & Hsplit & Hws).
    exists ws, sg, ds. rewrite <- Hs. auto.
  - intros (ws & sg & ds & -> & Hws & Hsg & Hds & Hall).
    assert (Hne : (ws ++ sg ++ ds)%string <> EmptyString).
    { destruct ws; destruct sg; destruct ds; cbn; try discriminate.
      contradiction. }
    split; [exact Hne |]. apply (strtol_shape _ Hne).
    exists sg, ds. rewrite skip_space_app by exact Hws.
    rewrite skip_space_signed by assumption. auto.
Qed.

(** *** Which texts [store_get_int] reads as integers *)

(** C3, as the code has it: a variable set to "0", "-1" or "2147483647"
    reads back as that integer, and so does one set to " 1" or "+1"
    (both give 1); the call fails on the empty text and on "1 ", "1a"
    and "0x10".  The whole value must be converted, and the conversion
    is that of [strtol]: leading white space is skipped and one sign,
    plus or minus, is taken before the digits. *)
Theorem get_int_strictness (vs : option VAR_STORE) (n : string) :
  let stored (s : string) := fst (store_set_string vs (Some n) (Some s)) in
  store_get_int (stored "0"%string) n = (0, Some 0)
  /\ store_get_int (stored "-1"%string) n = (0, Some (-1))
  /\ store_get_int (stored "2147483647"%string) n = (0, Some 2147483647)
  /\ store_get_int (stored " 1"%string) n = (0, Some 1)
  /\ store_get_int (stored "+1"%string) n = (0, Some 1)
  /\ store_get_int (stored EmptyString) n = (-1, None)
  /\ store_get_int (stored "1 "%string) n = (-1, None)
  /\ store_get_int (stored "1a"%string) n = (-1, None)
  /\ store_get_int (stored "0x10"%string) n = (-1, None)
  /\ (forall v, fst (store_get_int (stored v) n) = 0 <-> integer_text v).
Proof.
  cbv zeta. cbn [store_set_string fst store_get_int].
  repeat match goal with |- _ /\ _ => split end;
    try (rewrite get_int_set_loop; reflexivity).
  intros v. rewrite get_int_set_loop. apply int_of_value_integer_text.
Qed.

(** C3, as it is stated, fails: with leading white space, and with a
    plus sign, [store_get_int] does not return [-1]; it returns [0] and
    stores 1. *)
Lemma get_int_accepts_space_and_plus :
  store_get_int
    (fst (store_set_string None (Some "x"%string) (Some " 1"%string)))
    "x"%string = (0, Some 1)
  /\ store_get_int
       (fst (store_set_string None (Some "x"%string) (Some "+1"%string)))
       "x"%string = (0, Some 1).
Proof. split; reflexivity. Qed.

(** *** More on the data store *)

(** X1: a variable set to the null value is un-set: [store_set_string]
    succeeds, and afterwards [store_get_string] returns no string and
    [store_get_int] fails, whatever the variable held before. *)
Theorem unset_reads_as_nothing (vs : option VAR_STORE) (n : string) :
  snd (store_set_string vs (Some n) None) = 0
  /\ store_get_string (fst (store_set_string vs (Some n) None)) n = None
  /\ store_get_int (fst (store_set_string vs (Some n) None)) n = (-1, None).
Proof.
  cbn [store_set_string fst snd store_get_string store_get_int].
  rewrite get_string_set_loop, get_int_set_loop. repeat split.
Qed.

Lemma streq_spec a b : streq a b = true <-> a = b.
Proof. apply String.eqb_eq. Qed.

Lemma get_string_set_loop_other n m v : forall l,
  m <> n -> get_string_loop m (set_loop n v l) = get_string_loop m l.
Proof.
  intros l Hm. induction l as [| x l IH]; cbn [set_loop get_string_loop].
  - cbn [var_name]. destruct (streq m n) eqn:E; [| reflexivity].
    apply streq_spec in E. contradiction.
  - destruct (streq n (var_name x)) eqn:En; cbn [get_string_loop var_name].
    + apply streq_spec in En. rewrite <- En.
      destruct (streq m n) eqn:E; [| reflexivity].
      apply streq_spec in E. contradiction.
    + rewrite IH. reflexivity.
Qed.

Lemma get_int_set_loop_other n m v : forall l,
  m <> n -> get_int_loop m (set_loop n v l) = get_int_loop m l.
Proof.
  intros l Hm. induction l as [| x l IH]; cbn [set_loop get_int_loop].
  - cbn [var_name]. destruct (streq m n) eqn:E; [| reflexivity].
    apply streq_spec in E. contradiction.
  - destruct (streq n (var_name x)) eqn:En; cbn [get_int_loop var_name].
    + apply streq_spec in En. rewrite <- En.
      destruct (streq m n) eqn:E; [| reflexivity].
      apply streq_spec in E. contradiction.
    + rewrite IH. reflexivity.
Qed.

(** X2: setting a variable with [store_set_string], to a string or to
    un-set, changes what neither [store_get_string] nor [store_get_int]
    returns for a variable of another name. *)
Theorem set_leaves_other_variables (vs : option VAR_STORE) (n m : string)
    (v : option string) :
  m <> n ->
  store_get_string (fst (store_set_string vs (Some n) v)) m
  = store_get_string vs m
  /\ store_get_int (fst (store_set_string vs (Some n) v)) m
     = store_get_int vs m.
Proof.
  intros Hm.
  assert (Hinit_s : store_get_string (Some (initialized vs)) m
                    = store_get_string vs m) by (destruct vs; reflexivity).
  assert (Hinit_i : store_get_int (Some (initialized vs)) m
                    = store_get_int vs m) by (destruct vs; reflexivity).
  cbn [store_set_string fst].
  split.
  - rewrite <- Hinit_s. cbn [store_get_string].
    apply get_string_set_loop_other, Hm.
  - rewrite <- Hinit_i. cbn [store_get_int].
    apply get_int_set_loop_other, Hm.
Qed.

Lemma set_leaves_other_variables_witness :
  store_get_string
    (fst (store_set_string
            (Some [ {| var_name := "y"; var_value := Some "7"%string |} ])
            (Some "x"%string) (Some "1"%string)))
    "y"%string
  = store_get_string
      (Some [ {| var_name := "y"; var_value := Some "7"%string |} ])
      "y"%string
  /\ store_get_int
       (fst (store_set_string
               (Some [ {| var_name := "y"; var_value := Some "7"%string |} ])
               (Some "x"%string) (Some "1"%string)))
       "y"%string
     = store_get_int
         (Some [ {| var_name := "y"; var_value := Some "7"%string |} ])
         "y"%string.
Proof.
  apply (set_leaves_other_variables
           (Some [ {| var_name := "y"; var_value := Some "7"%string |} ])
           "x"%string "y"%string (Some "1"%string)).
  discriminate.
Defined.

Lemma set_loop_names_known n v : forall l,
  In n (map var_name l) -> map var_name (set_loop n v l) = map var_name l.
Proof.
  induction l as [| x l IH]; cbn [map set_loop]; [intros [] |].
  destruct (streq n (var_name x)) eqn:E; cbn [map var_name]; [reflexivity |].
  intros [H | H].
  - rewrite H in E. unfold streq in E. rewrite String.eqb_refl in E.
    discriminate.
  - rewrite IH by exact H. reflexivity.
Qed.

Lemma set_loop_names_new n v : forall l,
  ~ In n (map var_name l) ->
  map var_name (set_loop n v l) = (map var_name l ++ [n])%list.
Proof.
  induction l as [| x l IH]; cbn [map set_loop]; [reflexivity |].
  intros H. destruct (streq n (var_name x)) eqn:E.
  - apply streq_spec in E. exfalso. apply H. left. symmetry. exact E.
  - cbn [map app]. rewrite IH; [reflexivity |].
    intros Hin. apply H. right. exact Hin.
Qed.

(** X3: the store holds one entry per name, in the order in which the
    names were first set: when the names are distinct,
    [store_set_string] leaves them distinct; a name already there keeps
    its place, a new name goes to the end. *)
Theorem set_keeps_names_in_order (vs : option VAR_STORE) (n : string)
    (v : option string) :
  NoDup (names vs) ->
  forall vs',
    vs' = fst (store_set_string vs (Some n) v) ->
    NoDup (names vs')
    /\ (In n (names vs) -> names vs' = names vs)
    /\ (~ In n (names vs) -> names vs' = (names vs ++ [n])%list).
Proof.
  intros Hnd vs' ->. cbn [store_set_string fst].
  unfold names in *. cbn [initialized].
  assert (Hk1 := set_loop_names_known n v (initialized vs)).
  assert (Hk2 := set_loop_names_new n v (initialized vs)).
  split; [| split; assumption].
  destruct (in_dec string_dec n (map var_name (initialized vs))) as [Hin | Hout].
  - rewrite Hk1 by exact Hin. exact Hnd.
  - rewrite Hk2 by exact Hout.
    apply NoDup_rev in Hnd. rewrite <- (rev_involutive (_ ++ [n])).
    apply NoDup_rev. rewrite rev_app_distr. cbn [rev app].
    constructor; [| exact Hnd].
    intros Hin. apply Hout. apply in_rev. exact Hin.
Qed.

Lemma set_keeps_names_in_order_witness :
  NoDup (names (fst (store_set_string
                       (Some [ {| var_name := "y"; var_value := None |} ])
                       (Some "x"%string) None)))
  /\ (In "x"%string
         (names (Some [ {| var_name := "y"; var_value := None |} ])) ->
      names (fst (store_set_string
                    (Some [ {| var_name := "y"; var_value := None |} ])
                    (Some "x"%string) None))
      = names (Some [ {| var_name := "y"; var_value := None |} ]))
  /\ (~ In "x"%string
          (names (Some [ {| var_name := "y"; var_value := None |} ])) ->
      names (fst (store_set_string
                    (Some [ {| var_name := "y"; var_value := None |} ])
                    (Some "x"%string) None))
      = (names (Some [ {| var_name := "y"; var_value := None |} ])
         ++ ["x"%string])%list).
Proof.
  apply (set_keeps_names_in_order
           (Some [ {| var_name := "y"; var_value := None |} ])
           "x"%string None).
  - constructor; [intros [] | constructor].
  - reflexivity.
Defined.

(** Reading back what [%ld] prints for any integer, in the range of
    [long] or not. *)
Lemma strtol_ltoa_clamp k : strtol (ltoa k) = (clamp_long k, EmptyString).
Proof.
  unfold ltoa. destruct (k <? 0) eqn:E.
  - apply Z.ltb_lt in E. unfold decimal.
    destruct (utoa_head (Z.to_nat (Z.log2 (- k))) (- k) EmptyString)
      as (c & r & Hs & Hc).
    pose proof (utoa_scan (Z.to_nat (Z.log2 (- k))) (- k) EmptyString) as Hscan.
    rewrite Hs in *. rewrite strtol_minus by exact Hc.
    rewrite Hscan by (split; [lia | apply decimal_bound; lia]).
    cbn [scan_digits fst snd]. rewrite Z.opp_involutive. reflexivity.
  - apply Z.ltb_ge in E. unfold decimal.
    destruct (utoa_head (Z.to_nat (Z.log2 k)) k EmptyString)
      as (c & r & Hs & Hc).
    pose proof (utoa_scan (Z.to_nat (Z.log2 k)) k EmptyString) as Hscan.
    rewrite Hs in *. rewrite strtol_digits by exact Hc.
    rewrite Hscan by (split; [lia | apply decimal_bound; lia]).
    reflexivity.
Qed.

(** X4: [store_get_int] does not report a number too large for a
    [long]: for a variable that holds the decimal text of any integer
    it succeeds, and what it stores is that integer when it fits,
    [LONG_MAX] when it is larger and [LONG_MIN] when it is smaller. *)
Theorem get_int_saturates (vs : option VAR_STORE) (n : string) (k : Z) :
  store_get_int (fst (store_set_string vs (Some n) (Some (ltoa k)))) n
  = (0, Some (if k <? LONG_MIN then LONG_MIN
              else if LONG_MAX <? k then LONG_MAX
              else k)).
Proof.
  cbn [store_set_string fst store_get_int]. rewrite get_int_set_loop.
  unfold int_of_value.
  destruct (ltoa_not_empty k) as (c & r & E).
  pose proof (strtol_ltoa_clamp k) as H. rewrite E in *. rewrite H.
  reflexivity.
Qed.

Lemma get_int_loop_get_string n : forall l,
  get_int_loop n l = int_of_value (get_string_loop n l).
Proof.
  induction l as [| x l IH]; cbn [get_int_loop get_string_loop];
    [reflexivity |].
  destruct (streq n (var_name x)); [reflexivity | exact IH].
Qed.

(** X20: [store_get_int] is [store_get_string] followed by the
    conversion of the string: on any store it succeeds exactly when the
    variable has a string that is an integer text, in particular never
    for a variable that is unknown or un-set, and the integer it stores
    is the one [strtol] reads from that string. *)
Theorem get_int_reads_the_string (vs : option VAR_STORE) (n : string) :
  store_get_int vs n = int_of_value (store_get_string vs n)
  /\ (fst (store_get_int vs n) = 0 <->
      exists t, store_get_string vs n = Some t /\ integer_text t)
  /\ (forall k, store_get_int vs n = (0, Some k) ->
      exists t, store_get_string vs n = Some t
                /\ strtol t = (k, EmptyString)).
Proof.
  assert (Hlaw : store_get_int vs n = int_of_value (store_get_string vs n)).
  { destruct vs as [l |]; [apply get_int_loop_get_string | reflexivity]. }
  split; [exact Hlaw |]. rewrite Hlaw.
  destruct (store_get_string vs n) as [t |].
  - split.
    + rewrite int_of_value_integer_text. split.
      * intros H. exists t. auto.
      * intros (t' & [= <-] & H). exact H.
    + intros k H. exists t. split; [reflexivity |].
      unfold int_of_value in H. destruct t as [| c r]; [discriminate |].
      destruct (strtol (String c r)) as [x e].
      destruct e; [| discriminate]. injection H as <-. reflexivity.
  - split.
    + cbn. split; [discriminate | intros (t & H & _); discriminate].
    + intros k H. discriminate.
Qed.

End StoreFacts.

(** ** The program store *)

Module ProgFacts.
Import Prog.
Local Open Scope list_scope.

(** *** Nodes and addresses *)

Lemma find_line_In a ls l rest :
  find_line a ls = Some (l, rest) -> In l ls /\ addr l = a.
Proof.
  induction ls as [| x ls IH]; cbn [find_line]; [discriminate |].
  destruct (addr x =? a) eqn:E.
  - intros [= <- <-]. apply Z.eqb_eq in E. cbn; auto.
  - intros H. destruct (IH H) as [Hin Ha]. cbn; auto.
Qed.

Lemma find_line_NoDup l ls :
  NoDup (map addr ls) -> In l ls ->
  exists rest, find_line (addr l) ls = Some (l, rest).
Proof.
  induction ls as [| x ls IH]; cbn [map find_line]; [intros _ [] |].
  intros Hnd [-> | Hin].
  - rewrite Z.eqb_refl. eauto.
  - inversion Hnd as [| ? ? Hx Hnd']; subst.
    destruct (addr x =? addr l) eqn:E.
    + apply Z.eqb_eq in E. exfalso. apply Hx. rewrite E. apply in_map, Hin.
    + apply IH; assumption.
Qed.

Lemma addr_inj l x ls :
  NoDup (map addr ls) -> In l ls -> In x ls -> addr x = addr l -> x = l.
Proof.
  intros Hnd Hl Hx E.
  destruct (find_line_NoDup l ls Hnd Hl) as [r1 H1].
  destruct (find_line_NoDup x ls Hnd Hx) as [r2 H2].
  rewrite E in H2. congruence.
Qed.

Lemma cursor_before s l :
  NoDup (nodes s) -> In l (lines s) -> counter s = Some (addr l) ->
  cursor s = Before l.
Proof.
  unfold nodes, cursor. intros Hnd Hin ->.
  inversion Hnd as [| ? ? Hh Hnd']; subst.
  destruct (addr l =? head s) eqn:E.
  - apply Z.eqb_eq in E. exfalso. apply Hh. rewrite <- E. apply in_map, Hin.
  - destruct (find_line_NoDup l (lines s) Hnd' Hin) as [rest ->]. reflexivity.
Qed.

Lemma cursor_at_end s : counter s = Some (head s) -> cursor s = AtEnd.
Proof. unfold cursor. intros ->. rewrite Z.eqb_refl. reflexivity. Qed.

Lemma cursor_before_inv s l :
  cursor s = Before l ->
  In l (lines s) /\ counter s = Some (addr l) /\ addr l <> head s.
Proof.
  unfold cursor. destruct (counter s) as [a |]; [| discriminate].
  destruct (a =? head s) eqn:E; [discriminate |].
  destruct (find_line a (lines s)) as [[x rest] |] eqn:F; [| discriminate].
  intros [= <-]. apply Z.eqb_neq in E.
  destruct (find_line_In _ _ _ _ F) as [Hin <-].
  auto.
Qed.

Lemma wf_not_stray s : wf s -> cursor s <> Stray.
Proof.
  intros [_ Hnd Hc]. unfold cursor.
  destruct (counter s) as [a |]; [| discriminate].
  destruct (a =? head s) eqn:E; [discriminate |].
  apply Z.eqb_neq in E. destruct Hc as [Hc | Hc]; [congruence |].
  apply in_map_iff in Hc. destruct Hc as (l & <- & Hin).
  inversion Hnd; subst.
  destruct (find_line_NoDup l (lines s)) as [rest ->]; [assumption .. |].
  discriminate.
Qed.

(** *** Filtering a list of lines *)

Lemma sorted_filter (f : PROG_LINE -> bool) ls :
  StronglySorted line_lt ls -> StronglySorted line_lt (filter f ls).
Proof.
  induction 1 as [| x ls Hs IH Hall]; cbn [filter]; [constructor |].
  destruct (f x); [| exact IH].
  constructor; [exact IH |].
  rewrite Forall_forall in *. intros y Hy. apply filter_In in Hy.
  apply Hall, Hy.
Qed.

Lemma nodup_filter (f : PROG_LINE -> bool) ls :
  NoDup (map addr ls) -> NoDup (map addr (filter f ls)).
Proof.
  induction ls as [| x ls IH]; cbn [map filter]; [auto |].
  intros Hnd. inversion Hnd as [| ? ? Hx Hnd']; subst.
  destruct (f x); [| auto]. cbn [map]. constructor; [| auto].
  intros Hin. apply Hx. apply in_map_iff in Hin.
  destruct Hin as (y & E & Hy). apply filter_In in Hy.
  rewrite <- E. apply in_map, Hy.
Qed.

(** *** [prog_delete] *)

Lemma delete_loop_lines min max hd : forall ls c,
  fst (delete_loop min max hd c ls) = filter (kept min max) ls.
Proof.
  induction ls as [| x ls IH]; intros c; cbn [delete_loop filter]; [reflexivity |].
  unfold kept at 1. destruct (in_range min max x); cbn [negb].
  - apply IH.
  - specialize (IH c). destruct (delete_loop min max hd c ls) as [r c'].
    cbn [fst] in *. congruence.
Qed.

(** The counter is left alone unless it points to a line of the range. *)
Lemma delete_loop_untouched min max hd : forall ls c,
  (forall x, In x ls -> in_range min max x = true -> ptr_eqb c (addr x) = false) ->
  snd (delete_loop min max hd c ls) = c.
Proof.
  induction ls as [| x ls IH]; intros c H; cbn [delete_loop]; [reflexivity |].
  destruct (in_range min max x) eqn:E.
  - rewrite (H x (or_introl eq_refl) E). apply IH.
    intros y Hy. apply H. right. exact Hy.
  - specialize (IH c). destruct (delete_loop min max hd c ls) as [r c'].
    cbn [snd] in *. apply IH. intros y Hy. apply H. right. exact Hy.
Qed.

Lemma in_range_spec min max l :
  in_range min max l = true <-> min <= lineno (content l) <= max.
Proof. unfold in_range. rewrite andb_true_iff, Z.geb_le, Z.leb_le. tauto. Qed.

(** A counter on a line of the range ends on the first line kept beyond
    the range, or on the head. *)
Lemma delete_loop_advance min max hd : forall ls l,
  StronglySorted line_lt ls -> NoDup (map addr ls) ->
  In l ls -> in_range min max l = true ->
  snd (delete_loop min max hd (Some (addr l)) ls)
  = Some (target max hd (filter (kept min max) ls)).
Proof.
  induction ls as [| x ls IH]; intros l Hs Hnd Hin Hr; [destruct Hin |].
  inversion Hs as [| ? ? Hs' Hall]; subst.
  inversion Hnd as [| ? ? Hx Hnd']; subst.
  rewrite Forall_forall in Hall.
  cbn [delete_loop filter]. unfold kept at 1.
  destruct (in_range min max x) eqn:Ex; cbn [negb].
  - cbn [ptr_eqb]. destruct (addr l =? addr x) eqn:Ea.
    + (* the counter is on [x] *)
      destruct ls as [| y ls'].
      * reflexivity.
      * cbn [next_of]. destruct (in_range min max y) eqn:Ey.
        -- apply IH; [assumption | assumption | left; reflexivity | exact Ey].
        -- rewrite delete_loop_untouched.
           ++ cbn [filter]. unfold kept at 1. rewrite Ey. cbn [negb].
              unfold target. cbn [find].
              assert (Hlt : line_lt x y) by (apply Hall; left; reflexivity).
              apply in_range_spec in Ex. unfold line_lt in Hlt.
              assert (Hy : ~ (min <= lineno (content y) <= max)).
              { rewrite <- in_range_spec. congruence. }
              destruct (max <? lineno (content y)) eqn:Em; [reflexivity |].
              apply Z.ltb_ge in Em. lia.
           ++ intros z Hz Hrz. cbn [ptr_eqb]. apply Z.eqb_neq. intros E.
              assert (z = y) by (apply (addr_inj y z (y :: ls')); auto; left; reflexivity).
              congruence.
    + apply Z.eqb_neq in Ea. destruct Hin as [-> | Hin]; [congruence |].
      apply IH; assumption.
  - destruct Hin as [-> | Hin]; [congruence |].
    specialize (IH l Hs' Hnd' Hin Hr).
    destruct (delete_loop min max hd (Some (addr l)) ls) as [r c'].
    cbn [snd] in *. rewrite IH. unfold target. cbn [find].
    assert (Hlt : line_lt x l) by (apply Hall; exact Hin).
    apply in_range_spec in Hr. unfold line_lt in Hlt.
    destruct (max <? lineno (content x)) eqn:Em; [| reflexivity].
    apply Z.ltb_lt in Em. lia.
Qed.

Lemma target_position max s :
  NoDup (nodes s) ->
  counter s = Some (target max (head s) (lines s)) ->
  cursor s = first_after max (lines s).
Proof.
  intros Hnd Hc. unfold target, first_after in *.
  destruct (find (fun x => max <? lineno (content x)) (lines s)) as [x |] eqn:F.
  - apply find_some in F. destruct F as [Hin _].
    apply cursor_before; assumption.
  - apply cursor_at_end, Hc.
Qed.

Lemma delete_wf s min max :
  wf s -> 0 < min <= max ->
  exists s', prog_delete (Some s) min max = (Some s', 0)
             /\ head s' = head s
             /\ lines s' = filter (kept min max) (lines s)
             /\ counter s' = snd (delete_loop min max (head s) (counter s) (lines s))
             /\ wf s'.
Proof.
  intros [Hs Hnd Hc] Hr. unfold prog_delete.
  replace ((min <=? 0) || (max <=? 0) || (max <? min)) with false
    by (symmetry; rewrite !orb_false_iff, !Z.leb_gt, Z.ltb_ge; lia).
  pose proof (delete_loop_lines min max (head s) (lines s) (counter s)) as Hl.
  destruct (delete_loop min max (head s) (counter s) (lines s)) as [ls c] eqn:E.
  cbn [fst snd] in *. eexists. split; [reflexivity |]. cbn.
  subst ls. do 3 (split; [reflexivity |]).
  assert (Hsub : forall a, In a (map addr (filter (kept min max) (lines s))) ->
                           In a (map addr (lines s))).
  { intros a Hin. apply in_map_iff in Hin.
    destruct Hin as (y & <- & Hy). apply filter_In in Hy. apply in_map, Hy. }
  unfold nodes in *. inversion Hnd as [| ? ? Hh Hnd']; subst.
  constructor; cbn.
  - apply sorted_filter, Hs.
  - constructor; [intros Hin; apply Hh, Hsub, Hin | apply nodup_filter, Hnd'].
  - replace c with (snd (delete_loop min max (head s) (counter s) (lines s)))
      by (rewrite E; reflexivity).
    clear E. destruct (counter s) as [a |] eqn:Ec.
    + destruct Hc as [<- | Hin].
      * rewrite delete_loop_untouched; [left; reflexivity |].
        intros x Hx _. cbn [ptr_eqb]. apply Z.eqb_neq. intros E.
        apply Hh. rewrite E. apply in_map, Hx.
      * apply in_map_iff in Hin. destruct Hin as (l & <- & Hl).
        destruct (in_range min max l) eqn:Er.
        -- rewrite delete_loop_advance by assumption.
           unfold target.
           destruct (find (fun x => max <? lineno (content x))
                       (filter (kept min max) (lines s))) as [x |] eqn:F.
           ++ right. apply find_some in F. apply in_map, F.
           ++ left. reflexivity.
        -- rewrite delete_loop_untouched.
           ++ right. apply in_map, filter_In. split; [exact Hl |].
              unfold kept. rewrite Er. reflexivity.
           ++ intros x Hx Hrx. cbn [ptr_eqb]. apply Z.eqb_neq. intros E.
              assert (x = l) by (apply (addr_inj l x (lines s)); auto).
              congruence.
    + rewrite delete_loop_untouched; [exact I |]. intros; reflexivity.
Qed.

(** Where [prog_delete] leaves a counter that was before a line, in
    terms of the test of its loop. *)
Lemma delete_cursor_filter (s : PROG_STORE) (min max : Z) (l : PROG_LINE) :
  wf s -> 1 <= min <= max -> cursor s = Before l ->
  exists s',
    prog_delete (Some s) min max = (Some s', 0)
    /\ wf s'
    /\ lines s' = filter (kept min max) (lines s)
    /\ (in_range min max l = false -> In l (lines s') /\ cursor s' = Before l)
    /\ (in_range min max l = true -> cursor s' = first_after max (lines s')).
Proof.
  intros Hwf Hr Hcur.
  destruct (delete_wf s min max Hwf) as (s' & Hd & Hh & Hl & Hc & Hwf'); [lia |].
  pose proof (wf_nodup s' Hwf') as Hnd.
  exists s'. split; [exact Hd |]. split; [exact Hwf' |]. split; [exact Hl |].
  destruct (cursor_before_inv s l Hcur) as (Hin & Hcs & _).
  destruct Hwf as [Hs Hnd0 _]. unfold nodes in Hnd0.
  inversion Hnd0 as [| ? ? _ Hnd1]; subst.
  rewrite Hcs in Hc. split.
  - intros Hout.
    assert (Hin' : In l (lines s')).
    { rewrite Hl. apply filter_In. split; [exact Hin |].
      unfold kept. rewrite Hout. reflexivity. }
    split; [exact Hin' |].
    apply cursor_before; [exact Hnd | exact Hin' |].
    rewrite Hc. apply delete_loop_untouched.
    intros x Hx Hrx. cbn [ptr_eqb]. apply Z.eqb_neq. intros E.
    assert (x = l) by (apply (addr_inj l x (lines s)); auto).
    congruence.
  - intros Hinr. apply target_position; [exact Hnd |].
    rewrite Hc, Hh, Hl. apply delete_loop_advance; assumption.
Qed.

(** In a list in increasing order, the first line that passes a test
    has the least number of those that pass it. *)
Lemma find_least (f : PROG_LINE -> bool) : forall ls l',
  StronglySorted line_lt ls -> find f ls = Some l' ->
  forall x, In x ls -> f x = true ->
            lineno (content l') <= lineno (content x).
Proof.
  induction ls as [| a ls IH]; intros l' Hs; cbn [find]; [discriminate |].
  apply StronglySorted_inv in Hs. destruct Hs as [Hs Hall].
  rewrite Forall_forall in Hall.
  destruct (f a) eqn:Ea.
  - intros [= <-] x [<- | Hx] _; [lia |].
    specialize (Hall x Hx). unfold line_lt in Hall. lia.
  - intros Hf x [<- | Hx] Hfx; [congruence |].
    apply (IH l' Hs Hf x Hx Hfx).
Qed.

(** C6: [prog_delete] on a valid range removes the lines whose number is
    in the range and no other.  A program counter that is before a line
    whose number is outside the range stays before that line.  A counter
    that is before a line of the range ends before the line left with
    the least number above [max], or at the end when no line left has a
    number above [max]. *)
Theorem delete_preserves_cursor (s : PROG_STORE) (min max : Z) (l : PROG_LINE) :
  wf s -> 1 <= min <= max -> cursor s = Before l ->
  exists s',
    prog_delete (Some s) min max = (Some s', 0)
    /\ wf s'
    /\ (forall x, In x (lines s') <->
                  In x (lines s) /\ ~ (min <= lineno (content x) <= max))
    /\ (~ (min <= lineno (content l) <= max) ->
        In l (lines s') /\ cursor s' = Before l)
    /\ (min <= lineno (content l) <= max ->
        (exists l',
           cursor s' = Before l'
           /\ In l' (lines s')
           /\ max < lineno (content l')
           /\ forall x, In x (lines s') -> max < lineno (content x) ->
                        lineno (content l') <= lineno (content x))
        \/ (cursor s' = AtEnd
            /\ forall x, In x (lines s') -> lineno (content x) <= max)).
Proof.
  intros Hwf Hr Hcur.
  destruct (delete_cursor_filter s min max l Hwf Hr Hcur)
    as (s' & Hd & Hwf' & Hl & Hout & Hin).
  exists s'. split; [exact Hd |]. split; [exact Hwf' |].
  split; [| split].
  - intros x. rewrite Hl, filter_In. unfold kept.
    rewrite negb_true_iff, <- not_true_iff_false, in_range_spec. tauto.
  - intros Hno. apply Hout.
    apply not_true_iff_false. rewrite in_range_spec. exact Hno.
  - intros Hyes. apply in_range_spec in Hyes. specialize (Hin Hyes).
    unfold first_after in Hin.
    destruct (find (fun x => max <? lineno (content x)) (lines s'))
      as [l' |] eqn:F.
    + left. exists l'. split; [exact Hin |].
      pose proof (find_least _ _ _ (wf_sorted s' Hwf') F) as Hleast.
      apply find_some in F. destruct F as [Hl' Hgt].
      apply Z.ltb_lt in Hgt.
      split; [exact Hl' |]. split; [exact Hgt |].
      intros x Hx Hxgt. apply Hleast; [exact Hx |].
      apply Z.ltb_lt, Hxgt.
    + right. split; [exact Hin |].
      intros x Hx. pose proof (find_none _ _ F x Hx) as Hle.
      cbv beta in Hle. apply Z.ltb_ge in Hle. exact Hle.
Qed.

(** *** [prog_insert] *)

(** A line of the list after the search is a line of the list before it,
    or it holds the inserted statement, at the new address or at the
    address of the line it replaces. *)
Lemma insert_loop_In stmt new : forall ls y,
  In y (insert_loop stmt new ls) ->
  In y ls
  \/ content y = stmt
     /\ (addr y = new
         \/ exists x, In x ls /\ addr y = addr x
                      /\ lineno (content x) = lineno stmt).
Proof.
  induction ls as [| x ls IH]; intros y; cbn [insert_loop].
  - cbn. intros [<- | []]. right. cbn. auto.
  - destruct (lineno (content x) =? lineno stmt) eqn:E1.
    + apply Z.eqb_eq in E1. cbn. intros [<- | H]; [| auto].
      right. cbn. split; [reflexivity |]. right. exists x. auto.
    + destruct (lineno (content x) >? lineno stmt) eqn:E2.
      * cbn. intros [<- | H]; [| auto]. right. cbn. auto.
      * intros [<- | H]; [left; left; reflexivity |].
        destruct (IH y H) as [Hin | (Hc & [Hn | (z & Hz & Hz')])].
        -- left. right. exact Hin.
        -- right. auto.
        -- right. split; [exact Hc |]. right. exists z. cbn. tauto.
Qed.

(** A line of the list before the search is still there, at its address
    and with its number; its statement is the one it had, or the
    inserted one when that has its number. *)
Lemma insert_loop_keeps stmt new : forall ls l,
  In l ls ->
  exists l', In l' (insert_loop stmt new ls)
             /\ addr l' = addr l
             /\ lineno (content l') = lineno (content l)
             /\ (content l' = content l \/ content l' = stmt).
Proof.
  induction ls as [| x ls IH]; intros l; [intros [] |].
  cbn [insert_loop].
  destruct (lineno (content x) =? lineno stmt) eqn:E1.
  - apply Z.eqb_eq in E1. intros [-> | H].
    + exists {| addr := addr l; content := stmt |}. cbn. auto.
    + exists l. cbn. auto.
  - destruct (lineno (content x) >? lineno stmt) eqn:E2.
    + intros H. exists l. cbn. cbn in H. tauto.
    + intros [-> | H].
      * exists l. cbn. auto.
      * destruct (IH l H) as (l' & Hin & Hrest). exists l'. cbn. auto.
Qed.

Lemma insert_loop_sorted stmt new : forall ls,
  StronglySorted line_lt ls ->
  StronglySorted line_lt (insert_loop stmt new ls).
Proof.
  induction ls as [| x ls IH]; intros Hs; cbn [insert_loop].
  - repeat constructor.
  - inversion Hs as [| ? ? Hs' Hall]; subst.
    destruct (lineno (content x) =? lineno stmt) eqn:E1.
    + apply Z.eqb_eq in E1. constructor; [exact Hs' |].
      revert Hall. apply Forall_impl. unfold line_lt. cbn. intros; lia.
    + destruct (lineno (content x) >? lineno stmt) eqn:E2.
      * apply Z.gtb_lt in E2. constructor; [exact Hs |].
        constructor; [exact E2 |].
        revert Hall. apply Forall_impl. unfold line_lt. cbn. intros; lia.
      * constructor; [exact (IH Hs') |].
        rewrite Forall_forall in *. intros y Hy.
        destruct (insert_loop_In stmt new ls y Hy) as [Hin | [Hc _]];
          [apply Hall, Hin |].
        unfold line_lt. rewrite Hc. apply Z.eqb_neq in E1.
        rewrite Z.gtb_ltb in E2. apply Z.ltb_ge in E2. lia.
Qed.

Lemma insert_loop_addr stmt new ls a :
  In a (map addr (insert_loop stmt new ls)) ->
  In a (map addr ls) \/ a = new.
Proof.
  intros H. apply in_map_iff in H. destruct H as (y & <- & Hy).
  destruct (insert_loop_In stmt new ls y Hy)
    as [Hin | (_ & [Hn | (x & Hx & Hax & _)])].
  - left. apply in_map, Hin.
  - right. exact Hn.
  - left. rewrite Hax. apply in_map, Hx.
Qed.

Lemma insert_loop_nodup stmt new : forall ls,
  ~ In new (map addr ls) -> NoDup (map addr ls) ->
  NoDup (map addr (insert_loop stmt new ls)).
Proof.
  induction ls as [| x ls IH]; intros Hnew Hnd; cbn [insert_loop].
  - cbn. constructor; [intros [] | constructor].
  - inversion Hnd as [| ? ? Hx Hnd']; subst.
    destruct (lineno (content x) =? lineno stmt).
    + exact Hnd.
    + destruct (lineno (content x) >? lineno stmt).
      * cbn [map addr]. constructor; assumption.
      * assert (Hnew' : ~ In new (map addr ls)) by (cbn in Hnew; tauto).
        cbn [map]. constructor; [| exact (IH Hnew' Hnd')].
        intros Hin. destruct (insert_loop_addr _ _ _ _ Hin) as [H | H];
          [contradiction |].
        apply Hnew. left. exact H.
Qed.

Lemma insert_wf head_addr line_addr s stmt :
  wf s -> ~ In line_addr (nodes s) -> 0 < lineno stmt ->
  exists s', prog_insert head_addr line_addr (Some s) stmt = (Some s', 0)
             /\ head s' = head s
             /\ counter s' = counter s
             /\ lines s' = insert_loop stmt line_addr (lines s)
             /\ wf s'.
Proof.
  intros [Hs Hnd Hc] Hfresh Hpos. unfold prog_insert.
  replace (lineno stmt <=? 0) with false by (symmetry; apply Z.leb_gt; lia).
  eexists. split; [reflexivity |]. cbn.
  do 3 (split; [reflexivity |]).
  unfold nodes in *. inversion Hnd as [| ? ? Hh Hnd0]; subst.
  constructor; cbn.
  - apply insert_loop_sorted, Hs.
  - constructor.
    + intros Hin. destruct (insert_loop_addr _ _ _ _ Hin) as [H | H];
        [contradiction |].
      apply Hfresh. left. exact H.
    + apply insert_loop_nodup; [| exact Hnd0].
      intros Hin. apply Hfresh. right. exact Hin.
  - destruct (counter s) as [c |]; [| exact I].
    destruct Hc as [<- | Hin]; [left; reflexivity |].
    apply in_map_iff in Hin. destruct Hin as (l & <- & Hl).
    destruct (insert_loop_keeps stmt line_addr (lines s) l Hl)
      as (l' & Hin' & <- & _).
    right. apply in_map, Hin'.
Qed.

Lemma new_store_wf head_addr : wf (new_store head_addr).
Proof.
  constructor; cbn.
  - constructor.
  - constructor; [intros [] | constructor].
  - exact I.
Qed.

(** C7: [prog_insert] of a statement with a positive line number
    succeeds, leaves the line numbers strictly increasing, and leaves the
    program counter where it was: unset if it was unset, after all
    statements if it was there, and before the line of the same node and
    the same number if it was before a line; that line holds the
    statement it held, or the inserted one when that replaces it. *)
Theorem insert_preserves_cursor (pstorage : option PROG_STORE)
    (head_addr line_addr : ptr) (stmt : STMT) :
  store_ok pstorage -> fresh_for pstorage head_addr line_addr ->
  0 < lineno stmt ->
  exists s',
    prog_insert head_addr line_addr pstorage stmt = (Some s', 0)
    /\ wf s'
    /\ StronglySorted line_lt (lines s')
    /\ match position_of pstorage with
       | Unset => cursor s' = Unset
       | AtEnd => cursor s' = AtEnd
       | Before l =>
           exists l', cursor s' = Before l'
                      /\ addr l' = addr l
                      /\ lineno (content l') = lineno (content l)
                      /\ (content l' = content l
                          \/ content l' = stmt
                             /\ lineno (content l) = lineno stmt)
       | Stray => False
       end.
Proof.
  intros Hok Hfresh Hpos.
  assert (Hgen : forall s, wf s -> ~ In line_addr (nodes s) ->
            exists s',
              prog_insert head_addr line_addr (Some s) stmt = (Some s', 0)
              /\ wf s'
              /\ StronglySorted line_lt (lines s')
              /\ match cursor s with
                 | Unset => cursor s' = Unset
                 | AtEnd => cursor s' = AtEnd
                 | Before l =>
                     exists l', cursor s' = Before l'
                                /\ addr l' = addr l
                                /\ lineno (content l') = lineno (content l)
                                /\ (content l' = content l
                                    \/ content l' = stmt
                                       /\ lineno (content l) = lineno stmt)
                 | Stray => False
                 end).
  { intros s Hwf Hfr.
    destruct (insert_wf head_addr line_addr s stmt Hwf Hfr Hpos)
      as (s' & Hi & Hh & Hc & Hl & Hwf').
    exists s'. split; [exact Hi |]. split; [exact Hwf' |].
    split; [apply Hwf' |].
    destruct (cursor s) as [| | l |] eqn:Hcur.
    - unfold cursor in *. rewrite Hc.
      destruct (counter s) as [a |]; [| reflexivity].
      destruct (a =? head s); [discriminate |].
      destruct (find_line a (lines s)) as [[? ?] |]; discriminate.
    - unfold cursor in Hcur. destruct (counter s) as [a |] eqn:Ec; [| discriminate].
      destruct (a =? head s) eqn:E.
      + apply Z.eqb_eq in E. subst a. apply cursor_at_end. congruence.
      + destruct (find_line a (lines s)) as [[? ?] |]; discriminate.
    - destruct (cursor_before_inv s l Hcur) as (Hin & Hcs & _).
      destruct (insert_loop_keeps stmt line_addr (lines s) l Hin)
        as (l' & Hin' & Ha & Hn & Hcont).
      rewrite <- Hl in Hin'.
      exists l'. split.
      + apply cursor_before; [apply Hwf' | exact Hin' | congruence].
      + split; [exact Ha |]. split; [exact Hn |].
        destruct Hcont as [H | H]; [left; exact H |].
        right. split; [exact H |]. rewrite <- Hn, H. reflexivity.
    - exact (wf_not_stray s Hwf Hcur). }
  destruct pstorage as [s |].
  - apply (Hgen s); [exact Hok | exact Hfresh].
  - apply (Hgen (new_store head_addr)); [apply new_store_wf |].
    cbn. cbn in Hfresh. intros [H | []]. apply Hfresh. symmetry. exact H.
Qed.

(** *** Every store the operations lead to is well formed *)

Lemma with_counter_wf s c :
  wf s -> In c (nodes s) -> wf (with_counter s (Some c)).
Proof. intros [Hs Hnd _] Hc. constructor; assumption. Qed.

Lemma next_of_nodes hd ls rest :
  (forall x, In x rest -> In x ls) -> In (next_of hd rest) (hd :: map addr ls).
Proof.
  intros H. destruct rest as [| y rest]; cbn [next_of].
  - left. reflexivity.
  - right. apply in_map, H. left. reflexivity.
Qed.

Lemma find_line_rest a ls l rest :
  find_line a ls = Some (l, rest) -> forall x, In x rest -> In x ls.
Proof.
  induction ls as [| y ls IH]; cbn [find_line]; [discriminate |].
  destruct (addr y =? a).
  - intros [= <- <-] x Hx. right. exact Hx.
  - intros H x Hx. right. apply (IH H x Hx).
Qed.

Lemma goto_loop_In n ls l : goto_loop n ls = Some l -> In l ls.
Proof.
  induction ls as [| x ls IH]; cbn [goto_loop]; [discriminate |].
  destruct (lineno (content x) =? n).
  - intros [= ->]. left. reflexivity.
  - intros H. right. apply IH, H.
Qed.

(** X6: every store the operations lead to, from the start of the
    program on, is well formed: the line numbers increase strictly along
    the list (no number occurs twice), and the program counter is null
    or points to the head or to a line of the store, never to a line
    that [prog_delete] has freed. *)
Lemma reachable_ok ps : reachable ps -> store_ok ps.
Proof.
  induction 1 as [| ps h a stmt _ IH Hfr | ps min max _ IH | ps _ IH
                  | ps ps' st _ IH Hn | ps n ps' st _ IH Hg].
  - exact I.
  - destruct (Z_lt_le_dec 0 (lineno stmt)) as [Hpos | Hneg].
    + destruct ps as [s |].
      * destruct (insert_wf h a s stmt IH Hfr Hpos)
          as (s' & -> & _ & _ & _ & Hwf).
        exact Hwf.
      * change (prog_insert h a None stmt)
          with (prog_insert h a (Some (new_store h)) stmt).
        destruct (insert_wf h a (new_store h) stmt (new_store_wf h))
          as (s' & -> & _ & _ & _ & Hwf);
          [ cbn; cbn in Hfr; intros [H | []]; apply Hfr; symmetry; exact H
          | exact Hpos | exact Hwf ].
    + unfold prog_insert.
      replace (lineno stmt <=? 0) with true by (symmetry; apply Z.leb_le; lia).
      destruct ps as [s |]; [exact IH | apply new_store_wf].
  - destruct ps as [s |].
    + destruct (Z_lt_le_dec 0 min) as [H1 | H1];
        [destruct (Z_le_gt_dec min max) as [H2 | H2] |].
      * destruct (delete_wf s min max IH) as (s' & -> & _ & _ & _ & Hwf);
          [lia | exact Hwf].
      * unfold prog_delete.
        replace (max <? min) with true by (symmetry; apply Z.ltb_lt; lia).
        rewrite orb_true_r. exact IH.
      * unfold prog_delete.
        replace (min <=? 0) with true by (symmetry; apply Z.leb_le; lia).
        exact IH.
    + unfold prog_delete.
      destruct ((min <=? 0) || (max <=? 0) || (max <? min)); exact I.
  - destruct ps as [s |]; [| exact I]. cbn [prog_reset store_ok] in *.
    apply with_counter_wf; [exact IH |].
    apply next_of_nodes. auto.
  - destruct ps as [s |]; cbn [prog_next] in Hn.
    + cbn [store_ok] in IH. destruct (counter s) as [c |] eqn:Ec.
      * destruct (negb (c =? head s)).
        -- unfold deref at 1 in Hn. destruct (c =? head s).
           ++ cbn [node_next] in Hn.
              destruct (deref _ _) as [n' | |]; inversion Hn; subst.
              apply with_counter_wf; [exact IH |]. apply next_of_nodes. auto.
           ++ destruct (find_line c (lines s)) as [[l rest] |] eqn:F;
                [| discriminate].
              cbn [node_next] in Hn.
              destruct (deref _ _) as [n' | |]; inversion Hn; subst.
              apply with_counter_wf; [exact IH |]. apply next_of_nodes.
              apply (find_line_rest _ _ _ _ F).
        -- destruct (deref s (Some c)) as [n' | |]; inversion Hn; subst.
           exact IH.
      * inversion Hn; subst. exact IH.
    + inversion Hn; subst. exact I.
  - destruct ps as [s |]; cbn [prog_goto] in Hg; [| discriminate].
    cbn [store_ok] in IH.
    destruct (goto_loop n (lines s)) as [l |] eqn:G; inversion Hg; subst.
    + apply with_counter_wf; [exact IH |]. right. apply in_map.
      apply (goto_loop_In _ _ _ G).
    + exact IH.
Qed.

Ltac solve_wf :=
  constructor; cbn;
  [ repeat (constructor; try (unfold line_lt; cbn; lia))
  | repeat (constructor; try (cbn; intuition discriminate))
  | try exact I; tauto ].

Lemma three_lines_wf : wf three_lines.
Proof. solve_wf. Defined.

Lemma delete_preserves_cursor_witness :
  exists s',
    prog_delete (Some three_lines) 20 20 = (Some s', 0)
    /\ wf s'
    /\ (forall x, In x (lines s') <->
                  In x (lines three_lines)
                  /\ ~ (20 <= lineno (content x) <= 20))
    /\ (~ (20 <= lineno (content line_20) <= 20) ->
        In line_20 (lines s') /\ cursor s' = Before line_20)
    /\ (20 <= lineno (content line_20) <= 20 ->
        (exists l',
           cursor s' = Before l'
           /\ In l' (lines s')
           /\ 20 < lineno (content l')
           /\ forall x, In x (lines s') -> 20 < lineno (content x) ->
                        lineno (content l') <= lineno (content x))
        \/ (cursor s' = AtEnd
            /\ forall x, In x (lines s') -> lineno (content x) <= 20)).
Proof.
  apply (delete_preserves_cursor three_lines 20 20 line_20).
  - exact three_lines_wf.
  - lia.
  - reflexivity.
Defined.

Lemma insert_preserves_cursor_witness :
  exists s',
    prog_insert 1 5 (Some three_lines) (stmt_at 15) = (Some s', 0)
    /\ wf s'
    /\ StronglySorted line_lt (lines s')
    /\ exists l', cursor s' = Before l'
                  /\ addr l' = addr line_20
                  /\ lineno (content l') = lineno (content line_20)
                  /\ (content l' = content line_20
                      \/ content l' = stmt_at 15
                         /\ lineno (content line_20) = lineno (stmt_at 15)).
Proof.
  apply (insert_preserves_cursor (Some three_lines) 1 5 (stmt_at 15)).
  - exact three_lines_wf.
  - cbn. intuition discriminate.
  - cbn. lia.
Defined.

(** The scenarios of the program store: with lines 10, 20, 30 and the
    counter before 20, deleting 20 leaves the counter before 30, and
    deleting 20 to 30 leaves it at the end; inserting 15 leaves it
    before 20. *)
Example delete_scenarios :
  prog_fetch (fst (prog_delete (Some three_lines) 20 20)) = Ret (Some (stmt_at 30))
  /\ prog_fetch (fst (prog_delete (Some three_lines) 20 30)) = Ret None
  /\ prog_fetch (fst (prog_insert 1 5 (Some three_lines) (stmt_at 15)))
     = Ret (Some (stmt_at 20)).
Proof. repeat split; reflexivity. Qed.

(** *** [prog_fetch], [prog_next] and [prog_goto] *)

Lemma fetch_position s :
  prog_fetch (Some s)
  = match cursor s with
    | Unset | Stray => Fault
    | AtEnd => Ret None
    | Before l => Ret (Some (content l))
    end.
Proof.
  unfold prog_fetch, cursor, deref.
  destruct (counter s) as [a |]; [| reflexivity].
  destruct (a =? head s); [reflexivity |].
  destruct (find_line a (lines s)) as [[l rest] |]; reflexivity.
Qed.

(** C5 fails on the code: after a first [prog_insert] and before any
    [prog_reset] the counter is the null pointer, and [prog_fetch]
    dereferences it, where [prog_next] tests it and returns no
    statement. *)
Theorem fetch_faults_on_unset_counter :
  position_of (fst (prog_insert 1 2 None (stmt_at 10))) = Unset
  /\ prog_fetch (fst (prog_insert 1 2 None (stmt_at 10))) = Fault
  /\ prog_next (fst (prog_insert 1 2 None (stmt_at 10)))
     = Ret (fst (prog_insert 1 2 None (stmt_at 10)), None).
Proof. repeat split; reflexivity. Qed.

Lemma goto_loop_finds n : forall ls l,
  StronglySorted line_lt ls -> In l ls -> lineno (content l) = n ->
  goto_loop n ls = Some l.
Proof.
  induction ls as [| x ls IH]; intros l Hs Hin Hn; [destruct Hin |].
  inversion Hs as [| ? ? Hs' Hall]; subst. cbn [goto_loop].
  destruct (lineno (content x) =? lineno (content l)) eqn:E.
  - destruct Hin as [-> | Hin]; [reflexivity |].
    apply Z.eqb_eq in E. rewrite Forall_forall in Hall.
    specialize (Hall l Hin). unfold line_lt in Hall. lia.
  - destruct Hin as [-> | Hin]; [rewrite Z.eqb_refl in E; discriminate |].
    apply IH; auto.
Qed.

Lemma goto_loop_none n : forall ls,
  (forall l, In l ls -> lineno (content l) <> n) -> goto_loop n ls = None.
Proof.
  induction ls as [| x ls IH]; intros H; [reflexivity |]. cbn [goto_loop].
  destruct (lineno (content x) =? n) eqn:E.
  - apply Z.eqb_eq in E. exfalso. apply (H x); [left; reflexivity | exact E].
  - apply IH. intros l Hl. apply H. right. exact Hl.
Qed.

(** C10: [prog_goto] on the store that no [prog_insert] has created
    dereferences the null [pstorage], whereas [prog_list],
    [prog_delete], [prog_reset], [prog_fetch] and [prog_next] return
    there without touching it.  Any [prog_insert] creates the store, and
    on a store that exists [prog_goto] does what it documents: when a
    line has the number, the counter is set before it and its statement
    returned; when none has, the store is unchanged and no statement is
    returned. *)
Theorem goto_needs_the_store (s : PROG_STORE) (n : Z) :
  wf s ->
  prog_goto None n = Fault
  /\ (forall show_stmt ok, prog_list show_stmt ok None = (EmptyString, 0))
  /\ (forall min max, exists r, prog_delete None min max = (None, r))
  /\ prog_reset None = None
  /\ prog_fetch None = Ret None
  /\ prog_next None = Ret (None, None)
  /\ (forall head_addr line_addr ps stmt,
        exists s', fst (prog_insert head_addr line_addr ps stmt) = Some s')
  /\ (forall l, In l (lines s) -> lineno (content l) = n ->
        prog_goto (Some s) n
        = Ret (Some (with_counter s (Some (addr l))), Some (content l))
        /\ cursor (with_counter s (Some (addr l))) = Before l)
  /\ ((forall l, In l (lines s) -> lineno (content l) <> n) ->
        prog_goto (Some s) n = Ret (Some s, None)).
Proof.
  intros Hwf.
  repeat match goal with |- _ /\ _ => split end; try reflexivity.
  - intros min max. unfold prog_delete.
    destruct ((min <=? 0) || (max <=? 0) || (max <? min)); eauto.
  - intros head_addr line_addr ps stmt. unfold prog_insert.
    destruct (lineno stmt <=? 0); cbn [fst]; eauto.
  - intros l Hin Hn. unfold prog_goto.
    rewrite (goto_loop_finds n (lines s) l (wf_sorted s Hwf) Hin Hn).
    split; [reflexivity |].
    apply cursor_before; [exact (wf_nodup s Hwf) | exact Hin | reflexivity].
  - intros Hnone. unfold prog_goto. rewrite goto_loop_none by exact Hnone.
    reflexivity.
Qed.

Lemma goto_needs_the_store_witness :
  prog_goto None 30 = Fault
  /\ prog_goto (Some three_lines) 30
     = Ret (Some (with_counter three_lines (Some 4)), Some (stmt_at 30)).
Proof.
  destruct (goto_needs_the_store three_lines 30 three_lines_wf)
    as (H1 & _ & _ & _ & _ & _ & _ & H2 & _).
  split; [exact H1 |].
  apply (H2 {| addr := 4; content := stmt_at 30 |}).
  - cbn. tauto.
  - reflexivity.
Defined.

(** *** More on the program store *)

Lemma reachable_ok_witness :
  store_ok (fst (prog_delete (fst (prog_insert 1 2 None (stmt_at 10))) 5 15)).
Proof.
  apply reachable_ok. apply reach_delete. apply reach_insert.
  - apply reach_start.
  - cbn. discriminate.
Defined.

(** X7: [prog_delete] on a valid range removes the lines whose number is
    in the range and no other line, whatever the store and wherever the
    counter is; the lines left keep their order. *)
Theorem delete_removes_the_range (s : PROG_STORE) (min max : Z) :
  1 <= min <= max ->
  exists s',
    prog_delete (Some s) min max = (Some s', 0)
    /\ head s' = head s
    /\ lines s' = filter (kept min max) (lines s)
    /\ forall l, In l (lines s') <->
                 In l (lines s) /\ ~ (min <= lineno (content l) <= max).
Proof.
  intros Hr. unfold prog_delete.
  replace ((min <=? 0) || (max <=? 0) || (max <? min)) with false
    by (symmetry; rewrite !orb_false_iff, !Z.leb_gt, Z.ltb_ge; lia).
  pose proof (delete_loop_lines min max (head s) (lines s) (counter s)) as Hl.
  destruct (delete_loop min max (head s) (counter s) (lines s)) as [ls c].
  cbn [fst] in Hl. subst ls. eexists. split; [reflexivity |]. cbn.
  split; [reflexivity |]. split; [reflexivity |].
  intros l. rewrite filter_In. unfold kept.
  rewrite negb_true_iff, <- not_true_iff_false, in_range_spec. tauto.
Qed.

Lemma delete_removes_the_range_witness :
  exists s',
    prog_delete (Some three_lines) 15 25 = (Some s', 0)
    /\ head s' = head three_lines
    /\ lines s' = filter (kept 15 25) (lines three_lines)
    /\ forall l, In l (lines s') <->
                 In l (lines three_lines)
                 /\ ~ (15 <= lineno (content l) <= 25).
Proof. apply (delete_removes_the_range three_lines 15 25). lia. Defined.

Lemma goto_loop_insert_same stmt new : forall ls,
  exists l, goto_loop (lineno stmt) (insert_loop stmt new ls) = Some l
            /\ content l = stmt.
Proof.
  induction ls as [| x ls IH]; cbn [insert_loop].
  - cbn [goto_loop content]. rewrite Z.eqb_refl. eauto.
  - destruct (lineno (content x) =? lineno stmt) eqn:E1.
    + cbn [goto_loop content]. rewrite Z.eqb_refl. eauto.
    + destruct (lineno (content x) >? lineno stmt).
      * cbn [goto_loop content]. rewrite Z.eqb_refl. eauto.
      * cbn [goto_loop]. rewrite E1. exact IH.
Qed.

Lemma goto_loop_insert_other stmt new m : forall ls,
  m <> lineno stmt ->
  option_map content (goto_loop m (insert_loop stmt new ls))
  = option_map content (goto_loop m ls).
Proof.
  intros ls Hm. apply Z.eqb_neq in Hm. rewrite Z.eqb_sym in Hm.
  induction ls as [| x ls IH]; cbn [insert_loop].
  - cbn [goto_loop content]. rewrite Hm. reflexivity.
  - destruct (lineno (content x) =? lineno stmt) eqn:E1.
    + apply Z.eqb_eq in E1. cbn [goto_loop content].
      rewrite E1, Hm. reflexivity.
    + destruct (lineno (content x) >? lineno stmt).
      * cbn [goto_loop content]. rewrite Hm. reflexivity.
      * cbn [goto_loop]. destruct (lineno (content x) =? m); [reflexivity |].
        exact IH.
Qed.

Lemma goto_result_loop s n :
  goto_result (Some s) n = option_map content (goto_loop n (lines s)).
Proof.
  unfold goto_result, prog_goto.
  destruct (goto_loop n (lines s)); reflexivity.
Qed.

(** X8: after [prog_insert] of a statement with a positive number,
    [prog_goto] to that number returns the statement, and [prog_goto]
    to any other number returns what it returned before the insertion
    (no statement, if the insertion created the store). *)
Theorem insert_then_goto (pstorage : option PROG_STORE)
    (head_addr line_addr : ptr) (stmt : STMT) :
  0 < lineno stmt ->
  exists s',
    prog_insert head_addr line_addr pstorage stmt = (Some s', 0)
    /\ goto_result (Some s') (lineno stmt) = Some stmt
    /\ forall m, m <> lineno stmt ->
         goto_result (Some s') m
         = match pstorage with
           | Some s => goto_result (Some s) m
           | None => None
           end.
Proof.
  intros Hpos. unfold prog_insert.
  replace (lineno stmt <=? 0) with false by (symmetry; apply Z.leb_gt; lia).
  eexists. split; [reflexivity |]. split.
  - rewrite goto_result_loop. cbn [lines].
    match goal with
    | |- context [insert_loop stmt line_addr ?ls] =>
        destruct (goto_loop_insert_same stmt line_addr ls) as (l & -> & Hl)
    end.
    cbn [option_map]. rewrite Hl. reflexivity.
  - intros m Hm. rewrite goto_result_loop. cbn [lines].
    rewrite goto_loop_insert_other by exact Hm.
    destruct pstorage as [s |]; [rewrite goto_result_loop |]; reflexivity.
Qed.

Lemma insert_then_goto_witness :
  exists s',
    prog_insert 1 5 (Some three_lines) (stmt_at 15) = (Some s', 0)
    /\ goto_result (Some s') (lineno (stmt_at 15)) = Some (stmt_at 15)
    /\ forall m, m <> lineno (stmt_at 15) ->
                 goto_result (Some s') m = goto_result (Some three_lines) m.
Proof.
  apply (insert_then_goto (Some three_lines) 1 5 (stmt_at 15)). cbn. lia.
Defined.

Lemma goto_loop_filter_out min max n : forall ls,
  min <= n <= max -> goto_loop n (filter (kept min max) ls) = None.
Proof.
  intros ls Hn. induction ls as [| x ls IH]; cbn [filter]; [reflexivity |].
  unfold kept at 1. destruct (in_range min max x) eqn:E; cbn [negb].
  - exact IH.
  - cbn [goto_loop]. destruct (lineno (content x) =? n) eqn:En; [| exact IH].
    apply Z.eqb_eq in En. exfalso.
    assert (in_range min max x = true) by (apply in_range_spec; lia).
    congruence.
Qed.

Lemma goto_loop_filter_in min max n : forall ls,
  ~ (min <= n <= max) ->
  goto_loop n (filter (kept min max) ls) = goto_loop n ls.
Proof.
  intros ls Hn. induction ls as [| x ls IH]; cbn [filter]; [reflexivity |].
  unfold kept at 1. destruct (in_range min max x) eqn:E; cbn [negb goto_loop].
  - apply in_range_spec in E.
    destruct (lineno (content x) =? n) eqn:En; [| exact IH].
    apply Z.eqb_eq in En. lia.
  - rewrite IH. reflexivity.
Qed.

(** X9: after [prog_delete] on a valid range, [prog_goto] to a number
    of the range finds no statement and leaves the store and the counter
    as they are; to a number outside the range it returns what it
    returned before the deletion. *)
Theorem delete_then_goto (s : PROG_STORE) (min max n : Z) :
  1 <= min <= max ->
  exists s',
    prog_delete (Some s) min max = (Some s', 0)
    /\ (min <= n <= max -> prog_goto (Some s') n = Ret (Some s', None))
    /\ (~ (min <= n <= max) ->
        goto_result (Some s') n = goto_result (Some s) n).
Proof.
  intros Hr. unfold prog_delete.
  replace ((min <=? 0) || (max <=? 0) || (max <? min)) with false
    by (symmetry; rewrite !orb_false_iff, !Z.leb_gt, Z.ltb_ge; lia).
  pose proof (delete_loop_lines min max (head s) (lines s) (counter s)) as Hl.
  destruct (delete_loop min max (head s) (counter s) (lines s)) as [ls c].
  cbn [fst] in Hl. subst ls. eexists. split; [reflexivity |]. split.
  - intros Hn. unfold prog_goto. cbn [lines].
    rewrite goto_loop_filter_out by exact Hn. reflexivity.
  - intros Hn. rewrite !goto_result_loop. cbn [lines].
    rewrite goto_loop_filter_in by exact Hn. reflexivity.
Qed.

Lemma delete_then_goto_witness :
  exists s',
    prog_delete (Some three_lines) 15 25 = (Some s', 0)
    /\ (15 <= 20 <= 25 -> prog_goto (Some s') 20 = Ret (Some s', None))
    /\ (~ (15 <= 20 <= 25) ->
        goto_result (Some s') 20 = goto_result (Some three_lines) 20).
Proof. apply (delete_then_goto three_lines 15 25 20). lia. Defined.

Lemma find_line_split l post : forall pre,
  NoDup (map addr (pre ++ l :: post)) ->
  find_line (addr l) (pre ++ l :: post) = Some (l, post).
Proof.
  induction pre as [| x pre IH]; cbn [app map find_line]; intros Hnd.
  - rewrite Z.eqb_refl. reflexivity.
  - inversion Hnd as [| ? ? Hx Hnd']; subst.
    destruct (addr x =? addr l) eqn:E; [| apply IH, Hnd'].
    apply Z.eqb_eq in E. exfalso. apply Hx. rewrite E.
    rewrite map_app. apply in_or_app. right. left. reflexivity.
Qed.

Lemma fetch_at s a :
  NoDup (nodes s) -> In a (nodes s) ->
  prog_fetch (Some (with_counter s (Some a)))
  = Ret (match find_line a (lines s) with
         | Some (l, _) => Some (content l)
         | None => None
         end).
Proof.
  intros Hnd Hin. unfold prog_fetch, deref. cbn [counter with_counter head lines].
  unfold nodes in *. inversion Hnd as [| ? ? Hh _]; subst.
  destruct (a =? head s) eqn:E.
  - apply Z.eqb_eq in E. subst a.
    destruct (find_line (head s) (lines s)) as [[l r] |] eqn:F; [| reflexivity].
    apply find_line_In in F. destruct F as [Hl Ha]. exfalso. apply Hh.
    rewrite <- Ha. apply in_map, Hl.
  - apply Z.eqb_neq in E. destruct Hin as [H | H]; [congruence |].
    apply in_map_iff in H. destruct H as (l & <- & Hl).
    inversion Hnd; subst.
    destruct (find_line_NoDup l (lines s)) as [rest ->]; [assumption .. |].
    reflexivity.
Qed.

(** One step of [prog_next] from a line. *)
Lemma next_from_line s pre l post :
  NoDup (nodes s) -> lines s = (pre ++ l :: post)%list ->
  counter s = Some (addr l) ->
  prog_next (Some s)
  = Ret (Some (with_counter s (Some (next_of (head s) post))),
         option_map content (hd_error post)).
Proof.
  intros Hnd Hl Hc. unfold prog_next. rewrite Hc.
  assert (Hne : addr l <> head s).
  { unfold nodes in Hnd. inversion Hnd as [| ? ? Hh _]; subst.
    intros E. apply Hh. rewrite <- E, Hl, map_app.
    apply in_or_app. right. left. reflexivity. }
  apply Z.eqb_neq in Hne. rewrite Hne. cbn [negb].
  assert (Hf : find_line (addr l) (lines s) = Some (l, post)).
  { rewrite Hl. apply find_line_split. rewrite <- Hl.
    unfold nodes in Hnd. inversion Hnd; assumption. }
  unfold deref at 1. rewrite Hne, Hf. cbn [node_next].
  assert (Hin : In (next_of (head s) post) (nodes s)).
  { apply next_of_nodes. intros x Hx. rewrite Hl.
    apply in_or_app. right. right. exact Hx. }
  pose proof (fetch_at s _ Hnd Hin) as Hfetch.
  unfold prog_fetch in Hfetch.
  destruct (deref (with_counter s (Some (next_of (head s) post)))
              (counter (with_counter s (Some (next_of (head s) post)))))
    as [n' | |]; try discriminate.
  injection Hfetch as Hfetch. rewrite Hfetch. f_equal. f_equal.
  destruct post as [| l' post']; cbn [next_of hd_error option_map].
  - destruct (find_line (head s) (lines s)) as [[x r] |] eqn:F; [| reflexivity].
    apply find_line_In in F. destruct F as [Hx Ha]. exfalso.
    unfold nodes in Hnd. inversion Hnd as [| ? ? Hh _]; subst.
    apply Hh. rewrite <- Ha. apply in_map, Hx.
  - assert (Hl' : In l' (lines s)).
    { rewrite Hl. apply in_or_app. right. right. left. reflexivity. }
    unfold nodes in Hnd. inversion Hnd; subst.
    destruct (find_line_NoDup l' (lines s)) as [rest ->]; [assumption .. |].
    reflexivity.
Qed.

(** X10: [prog_next] moves the counter by one line: from before a line
    to before the line that follows it, whose statement it returns, or
    to the end, where it returns none; at the end, and with a null
    counter, it returns none and changes nothing.  The lines are never
    changed. *)
Theorem next_moves_one_line (s : PROG_STORE) :
  wf s ->
  (cursor s = Unset \/ cursor s = AtEnd ->
   prog_next (Some s) = Ret (Some s, None))
  /\ (forall pre l post,
        lines s = (pre ++ l :: post)%list -> cursor s = Before l ->
        exists s',
          prog_next (Some s) = Ret (Some s', option_map content (hd_error post))
          /\ lines s' = lines s
          /\ cursor s' = match post with
                         | [] => AtEnd
                         | l' :: _ => Before l'
                         end).
Proof.
  intros Hwf. pose proof (wf_nodup s Hwf) as Hnd. split.
  - intros H. unfold prog_next, cursor in *.
    destruct (counter s) as [a |] eqn:Ec; [| reflexivity].
    destruct (a =? head s) eqn:E.
    + cbn [negb]. unfold deref. rewrite E. reflexivity.
    + destruct (find_line a (lines s)) as [[? ?] |];
        destruct H as [H | H]; discriminate.
  - intros pre l post Hl Hcur.
    destruct (cursor_before_inv s l Hcur) as (_ & Hc & _).
    eexists. split; [apply (next_from_line s pre l post Hnd Hl Hc) |].
    split; [reflexivity |].
    destruct post as [| l' post']; cbn [next_of].
    + apply cursor_at_end. reflexivity.
    + apply cursor_before; [exact Hnd | | reflexivity].
      cbn [lines with_counter]. rewrite Hl.
      apply in_or_app. right. right. left. reflexivity.
Qed.

Lemma next_moves_one_line_witness :
  (cursor three_lines = Unset \/ cursor three_lines = AtEnd ->
   prog_next (Some three_lines) = Ret (Some three_lines, None))
  /\ (forall pre l post,
        lines three_lines = (pre ++ l :: post)%list ->
        cursor three_lines = Before l ->
        exists s',
          prog_next (Some three_lines)
          = Ret (Some s', option_map content (hd_error post))
          /\ lines s' = lines three_lines
          /\ cursor s' = match post with
                         | [] => AtEnd
                         | l' :: _ => Before l'
                         end).
Proof. apply (next_moves_one_line three_lines). exact three_lines_wf. Defined.

Lemma walk_from s : forall post pre,
  NoDup (nodes s) -> lines s = (pre ++ post)%list ->
  walk (S (List.length post))
       (Some (with_counter s (Some (next_of (head s) post))))
  = Some (Ret (map content post)).
Proof.
  induction post as [| l post IH]; intros pre Hnd Hl.
  - cbn [walk List.length next_of map].
    rewrite fetch_at; [| exact Hnd | left; reflexivity].
    destruct (find_line (head s) (lines s)) as [[x r] |] eqn:F; [| reflexivity].
    apply find_line_In in F. destruct F as [Hx Ha]. exfalso.
    unfold nodes in Hnd. inversion Hnd as [| ? ? Hh _]; subst.
    apply Hh. rewrite <- Ha. apply in_map, Hx.
  - assert (Hin : In l (lines s)).
    { rewrite Hl. apply in_or_app. right. left. reflexivity. }
    change (walk (S (List.length (l :: post))) ?x)
      with (match prog_fetch x with
            | Ret None => Some (Ret [])
            | Ret (Some st) =>
                match prog_next x with
                | Ret (x', _) =>
                    match walk (S (List.length post)) x' with
                    | Some (Ret sts) => Some (Ret (st :: sts))
                    | Some Fault => Some Fault
                    | Some (Exited e) => Some (Exited e)
                    | None => None
                    end
                | Fault => Some Fault
                | Exited e => Some (Exited e)
                end
            | Fault => Some Fault
            | Exited e => Some (Exited e)
            end).
    cbn [next_of].
    rewrite fetch_at; [| exact Hnd | right; apply in_map, Hin].
    assert (Hnd' : NoDup (map addr (lines s))).
    { unfold nodes in Hnd. inversion Hnd; assumption. }
    destruct (find_line_NoDup l (lines s) Hnd' Hin) as [rest ->].
    rewrite (next_from_line (with_counter s (Some (addr l))) pre l post);
      [| exact Hnd | exact Hl | reflexivity].
    match goal with
    | |- context [walk ?f ?x] =>
        change (walk f x)
          with (walk (S (List.length post))
                     (Some (with_counter s (Some (next_of (head s) post)))))
    end.
    rewrite (IH (pre ++ [l])%list Hnd)
      by (rewrite Hl, <- app_assoc; reflexivity).
    reflexivity.
Qed.

(** X11: a program runs through its statements in the order of their
    numbers: after [prog_reset], fetching the statement at the counter
    and moving on with [prog_next] yields the statements of all the
    lines, first to last, each once; no call faults on the way, and
    after the last statement [prog_fetch] returns none, which ends the
    run. *)
Theorem reset_then_walk (s : PROG_STORE) :
  wf s ->
  walk (S (List.length (lines s))) (prog_reset (Some s))
  = Some (Ret (map content (lines s))).
Proof.
  intros Hwf. cbn [prog_reset].
  apply (walk_from s (lines s) []); [apply Hwf | reflexivity].
Qed.

Lemma reset_then_walk_witness :
  walk (S (List.length (lines three_lines))) (prog_reset (Some three_lines))
  = Some (Ret (map content (lines three_lines))).
Proof. apply (reset_then_walk three_lines). exact three_lines_wf. Defined.

Lemma append_assoc (a b c : string) :
  ((a ++ b) ++ c = a ++ (b ++ c))%string.
Proof.
  induction a as [| x a IH]; cbn [append]; [reflexivity |].
  rewrite IH. reflexivity.
Qed.

Lemma append_empty (a : string) : (a ++ EmptyString)%string = a.
Proof.
  induction a as [| x a IH]; cbn [append]; [reflexivity |].
  rewrite IH. reflexivity.
Qed.

(** A counter on no line of the list: nothing is marked before the end. *)
Lemma list_loop_unmarked show_stmt ok hd ctr : forall ls,
  (forall x, In x ls -> ptr_eqb ctr (addr x) = false) ->
  list_loop show_stmt ok hd ctr ls
  = (if ptr_eqb ctr hd
     then if ok then (shows show_stmt ls ++ marker, 0)
          else (shows show_stmt ls, -1)
     else (shows show_stmt ls, 0))%string.
Proof.
  induction ls as [| x ls IH]; intros H; cbn [list_loop shows].
  - destruct (ptr_eqb ctr hd); [destruct ok |]; reflexivity.
  - rewrite (H x (or_introl eq_refl)). cbn [andb].
    rewrite IH by (intros y Hy; apply H; right; exact Hy).
    destruct (ptr_eqb ctr hd); [destruct ok |]; cbn [append];
      rewrite ?append_assoc; reflexivity.
Qed.

Lemma list_loop_marked show_stmt ok hd l post : forall pre,
  NoDup (hd :: map addr (pre ++ l :: post)) ->
  list_loop show_stmt ok hd (Some (addr l)) (pre ++ l :: post)
  = (if ok
     then (shows show_stmt pre ++ marker ++ shows show_stmt (l :: post), 0)
     else (shows show_stmt pre, -1))%string.
Proof.
  induction pre as [| x pre IH]; intros Hnd; cbn [app].
  - cbn [list_loop ptr_eqb]. rewrite Z.eqb_refl. cbn [andb].
    destruct ok; cbn [negb]; [| reflexivity].
    rewrite list_loop_unmarked.
    + cbn [ptr_eqb].
      assert (E : (addr l =? hd) = false).
      { apply Z.eqb_neq. intros E. inversion Hnd as [| ? ? Hh _]; subst.
        apply Hh. left. reflexivity. }
      rewrite E. cbn [shows append]. reflexivity.
    + intros y Hy. cbn [ptr_eqb]. apply Z.eqb_neq. intros E.
      inversion Hnd as [| ? ? _ Hnd']; subst. cbn [map] in Hnd'.
      inversion Hnd' as [| ? ? Hl _]; subst. apply Hl. rewrite E.
      apply in_map, Hy.
  - cbn [list_loop ptr_eqb].
    assert (E : (addr l =? addr x) = false).
    { apply Z.eqb_neq. intros E. inversion Hnd as [| ? ? _ Hnd']; subst.
      cbn [map] in Hnd'. inversion Hnd' as [| ? ? Hx _]; subst.
      apply Hx. rewrite <- E, map_app. apply in_or_app. right. left.
      reflexivity. }
    rewrite E. cbn [andb]. rewrite IH.
    + destruct ok; cbn [shows append]; rewrite ?append_assoc; reflexivity.
    + inversion Hnd as [| ? ? Hh Hnd']; subst. cbn [map] in *.
      inversion Hnd' as [| ? ? _ Hnd'']; subst.
      constructor; [| exact Hnd''].
      intros Hin. apply Hh. right. exact Hin.
Qed.

(** X12: [prog_list] prints the statements in the order of the list and
    the line "-->" once, at the place of the counter: before the
    statement of the line the counter is before, after all statements
    when the counter is at the end, nowhere when the counter is null.
    When the stream refuses the mark, the call returns [-1] and only the
    statements before the counter have been printed. *)
Theorem list_marks_the_counter (show_stmt : STMT -> string) (s : PROG_STORE) :
  wf s ->
  (cursor s = Unset ->
   forall ok, prog_list show_stmt ok (Some s)
              = (shows show_stmt (lines s), 0))
  /\ (cursor s = AtEnd ->
      prog_list show_stmt true (Some s)
      = ((shows show_stmt (lines s) ++ marker)%string, 0)
      /\ prog_list show_stmt false (Some s)
         = (shows show_stmt (lines s), -1))
  /\ (forall pre l post,
        lines s = (pre ++ l :: post)%list -> cursor s = Before l ->
        prog_list show_stmt true (Some s)
        = ((shows show_stmt pre ++ marker
            ++ shows show_stmt (l :: post))%string, 0)
        /\ prog_list show_stmt false (Some s)
           = (shows show_stmt pre, -1)).
Proof.
  intros Hwf. pose proof (wf_nodup s Hwf) as Hnd. unfold nodes in Hnd.
  cbn [prog_list]. split; [| split].
  - intros Hcur ok. unfold cursor in Hcur.
    destruct (counter s) as [a |] eqn:Ec.
    + destruct (a =? head s); [discriminate |].
      destruct (find_line a (lines s)) as [[? ?] |]; discriminate.
    + rewrite list_loop_unmarked by (intros; reflexivity). reflexivity.
  - intros Hcur. unfold cursor in Hcur.
    destruct (counter s) as [a |] eqn:Ec; [| discriminate].
    destruct (a =? head s) eqn:E;
      [| destruct (find_line a (lines s)) as [[? ?] |]; discriminate].
    apply Z.eqb_eq in E. subst a.
    assert (Hno : forall x, In x (lines s) ->
                            ptr_eqb (Some (head s)) (addr x) = false).
    { intros x Hx. cbn [ptr_eqb]. apply Z.eqb_neq. intros E.
      inversion Hnd as [| ? ? Hh _]; subst. apply Hh. rewrite E.
      apply in_map, Hx. }
    rewrite !list_loop_unmarked by exact Hno.
    cbn [ptr_eqb]. rewrite Z.eqb_refl. split; reflexivity.
  - intros pre l post Hl Hcur.
    destruct (cursor_before_inv s l Hcur) as (_ & -> & _).
    rewrite Hl in *. rewrite !list_loop_marked by exact Hnd.
    split; reflexivity.
Qed.

Lemma list_marks_the_counter_witness :
  prog_list (fun st => stmt_text st) true (Some three_lines)
  = ((shows (fun st => stmt_text st) [ {| addr := 2; content := stmt_at 10 |} ]
      ++ marker
      ++ shows (fun st => stmt_text st)
           [ line_20; {| addr := 4; content := stmt_at 30 |} ])%string, 0).
Proof.
  destruct (list_marks_the_counter (fun st => stmt_text st) three_lines
              three_lines_wf) as (_ & _ & H).
  apply (H [ {| addr := 2; content := stmt_at 10 |} ] line_20
           [ {| addr := 4; content := stmt_at 30 |} ]); reflexivity.
Defined.

End ProgFacts.

(** ** The jobs module *)

Module JobsFacts.
Import Jobs.
Local Open Scope list_scope.

(** *** [child_handler] *)

(** C1 fails on the code: the handler switches on [WEXITSTATUS] of the
    status without asking first how the child ended.  For a leader
    killed by SIGKILL (wait status 9) that byte is 0 and the job becomes
    "completed", as it does for a leader killed by SIGTERM (15); a
    leader that exits with code 9 (wait status 9 * 256) makes the job
    "canceled".  The raw status is stored in each case. *)
Theorem child_handler_misreads_signals :
  child_handler (Some [running_job]) [(100, 9)]
  = Some (Some [with_status running_job "completed" 9])
  /\ child_handler (Some [running_job]) [(100, 15)]
     = Some (Some [with_status running_job "completed" 15])
  /\ child_handler (Some [running_job]) [(100, 2304)]
     = Some (Some [with_status running_job "canceled" 2304]).
Proof. repeat split; reflexivity. Qed.

(** What [child_handler] does to the job of a leader, in general: the
    byte [WEXITSTATUS] of the status alone selects the new status, and
    the raw status is stored. *)
Lemma change_status_loop_first pid st es : forall t j,
  find (fun x => pgid x =? pid) t = Some j ->
  find (fun x => pgid x =? pid) (fst (change_status_loop pid st es t))
  = Some (with_status j st es)
  /\ snd (change_status_loop pid st es t) = 0.
Proof.
  induction t as [| x t IH]; intros j; cbn [find change_status_loop];
    [discriminate |].
  destruct (pgid x =? pid) eqn:E.
  - intros [= ->]. cbn [fst snd find with_status pgid]. rewrite E. auto.
  - intros H. destruct (IH j H) as [H1 H2].
    destruct (change_status_loop pid st es t) as [t' r].
    cbn [fst snd find] in *. rewrite E. auto.
Qed.

Lemma child_handler_classifies t pid chstatus j :
  0 < pid ->
  Z.lor (Z.lor (WIFSTOPPED chstatus) (WIFSIGNALED chstatus))
        (WIFEXITED chstatus) <> 0 ->
  find (fun x => pgid x =? pid) t = Some j ->
  exists t', child_handler (Some t) [(pid, chstatus)] = Some (Some t')
             /\ find (fun x => pgid x =? pid) t'
                = Some (with_status j (status_for chstatus) chstatus).
Proof.
  intros Hpid Hany Hj. unfold child_handler. cbn [reap_loop].
  replace (pid <=? 0) with false by (symmetry; apply Z.leb_gt; lia).
  replace (0 <? pid) with true by (symmetry; apply Z.ltb_lt; lia).
  apply Z.eqb_neq in Hany. rewrite Hany. cbn [negb].
  unfold status_for, change_job_status.
  destruct (WEXITSTATUS chstatus =? EXIT_SUCCESS);
    [| destruct (WEXITSTATUS chstatus =? SIGKILL)];
    match goal with
    | |- context [change_status_loop ?p ?s ?e ?l] =>
        destruct (change_status_loop_first p s e l j Hj) as [H1 _];
        destruct (change_status_loop p s e l) as [t' r]
    end; exists t'; split; [reflexivity | exact H1 | reflexivity | exact H1
                           | reflexivity | exact H1].
Qed.

(** The wait status of a child killed by the signal [sig], without
    core dump, is [sig] itself: whatever the signal, the job of the
    leader becomes "completed". *)
Lemma killed_is_completed t pid sig j :
  0 < pid -> 1 <= sig <= 126 ->
  find (fun x => pgid x =? pid) t = Some j ->
  exists t', child_handler (Some t) [(pid, sig)] = Some (Some t')
             /\ find (fun x => pgid x =? pid) t'
                = Some (with_status j "completed" sig).
Proof.
  intros Hpid Hsig Hj.
  assert (Hexit : WEXITSTATUS sig = 0).
  { unfold WEXITSTATUS. rewrite Z.shiftr_land, Z.shiftr_div_pow2 by lia.
    rewrite (Z.div_small sig (2 ^ 8)) by lia. apply Z.land_0_l. }
  assert (Hsignaled : WIFSIGNALED sig = 1).
  { unfold WIFSIGNALED, signed_char.
    change 127 with (Z.ones 7). rewrite Z.land_ones by lia.
    rewrite (Z.mod_small sig (2 ^ 7)) by lia.
    rewrite (Z.mod_small (sig + 1 + 128) 256) by lia.
    rewrite Z.shiftr_div_pow2 by lia.
    assert (0 < (sig + 1 + 128 - 128) / 2 ^ 1).
    { apply Z.div_str_pos. lia. }
    destruct (0 <? (sig + 1 + 128 - 128) / 2 ^ 1) eqn:E; [reflexivity |].
    apply Z.ltb_ge in E. lia. }
  destruct (child_handler_classifies t pid sig j Hpid) as (t' & H1 & H2);
    [| exact Hj |].
  - rewrite Hsignaled. intros H.
    apply Z.lor_eq_0_iff in H. destruct H as [H _].
    apply Z.lor_eq_0_iff in H. destruct H as [_ H]. discriminate H.
  - exists t'. split; [exact H1 |].
    rewrite H2. unfold status_for. rewrite Hexit. reflexivity.
Qed.

(** A leader that exits with 0 makes its job "completed", one that
    exits with a code other than 0 and 9 makes it "aborted". *)
Example child_handler_exit_codes :
  child_handler (Some [running_job]) [(-1, 0); (100, 0)]
  = Some (Some [with_status running_job "completed" 0])
  /\ child_handler (Some [running_job]) [(100, 256)]
     = Some (Some [with_status running_job "aborted" 256]).
Proof. split; reflexivity. Qed.

(** *** [jobs_cancel] *)

Lemma poll_loop_find jobid t j :
  find (fun x => job_id x =? jobid) t = Some j ->
  poll_loop jobid t = if terminated (status j) then exit_status j else -1.
Proof.
  induction t as [| x t IH]; cbn [find poll_loop]; [discriminate |].
  destruct (job_id x =? jobid); [intros [= ->]; reflexivity | exact IH].
Qed.

Lemma cancel_loop_find kill jobid t j :
  find (fun x => job_id x =? jobid) t = Some j ->
  cancel_loop kill jobid t = if kill (- pgid j) SIGKILL <? 0 then -1 else 0.
Proof.
  induction t as [| x t IH]; cbn [find cancel_loop]; [discriminate |].
  destruct (job_id x =? jobid); [intros [= ->]; reflexivity | exact IH].
Qed.

(** C2 fails on the code: [jobs_cancel] succeeds on every job that has
    not terminated, whenever [kill] does.  It returns no table and
    changes none, so that a second call on the same job meets what the
    first call met and succeeds as well. *)
Theorem cancel_succeeds_again
    (kill : Z -> Z -> Z) (t : JOB_TABLE) (jobid : Z) (j : JOB_NODE) :
  find (fun x => job_id x =? jobid) t = Some j ->
  terminated (status j) = false ->
  0 <= kill (- pgid j) SIGKILL ->
  jobs_cancel kill (Some t) jobid = Ret 0.
Proof.
  intros Hf Ht Hk. unfold jobs_cancel, jobs_poll.
  rewrite (poll_loop_find jobid t j Hf), Ht. cbn [Z.eqb negb].
  rewrite (cancel_loop_find kill jobid t j Hf).
  destruct (kill (- pgid j) SIGKILL <? 0) eqn:E; [| reflexivity].
  apply Z.ltb_lt in E. lia.
Qed.

Lemma cancel_succeeds_again_witness :
  jobs_cancel kill_ok (Some [running_job]) 0 = Ret 0.
Proof.
  apply (cancel_succeeds_again kill_ok [running_job] 0 running_job).
  - reflexivity.
  - reflexivity.
  - unfold kill_ok. lia.
Defined.

(** *** [jobs_fini] *)

(** C8 fails on the code: [jobs_fini] returns [0] for no table that
    holds a job.  With a running job it sends the signal and, without
    waiting, calls [jobs_expunge], which refuses a job that has not
    terminated: the call returns [-1] and the job stays in the table.
    With a terminated job the job is expunged and the loop then reads
    the freed node. *)
Theorem fini_fails_on_every_job :
  (forall kill close j t jt',
     jobs_fini kill close (Some (j :: t)) <> Ret (jt', 0))
  /\ jobs_fini kill_ok close_ok (Some [running_job])
     = Ret (Some [running_job], -1)
  /\ jobs_fini kill_ok close_ok (Some [with_status running_job "completed" 0])
     = Fault.
Proof.
  split; [| split; reflexivity].
  intros kill close j t jt'. unfold jobs_fini.
  destruct (jobs_poll (Some (j :: t)) (job_id j) <? 0).
  - destruct (jobs_cancel kill (Some (j :: t)) (job_id j)) as [r | |];
      try discriminate.
    destruct (r <? 0); [discriminate |].
    destruct (jobs_expunge close (Some (j :: t)) (job_id j))
      as [[jt'' r'] | |]; try discriminate.
    destruct (r' <? 0); discriminate.
  - cbn [Z.ltb Z.compare].
    destruct (jobs_expunge close (Some (j :: t)) (job_id j))
      as [[jt'' r'] | |]; try discriminate.
    destruct (r' <? 0); discriminate.
Qed.

(** *** Captured output *)

Lemma eqb_nul c : c <> NUL -> Byte.eqb c NUL = false.
Proof.
  intros H. destruct (Byte.eqb c NUL) eqn:E; [| reflexivity].
  apply byte_dec_bl in E. contradiction.
Qed.

Lemma until_nul_stops p q :
  nul_free p -> until_nul (p ++ NUL :: q) = (p, true).
Proof.
  induction 1 as [| c p Hc Hp IH]; [reflexivity |].
  cbn [app until_nul]. rewrite (eqb_nul c Hc), IH. reflexivity.
Qed.

Lemma strncpy_nul_free b :
  nul_free b -> strncpy (b ++ [NUL]) (List.length b) = b.
Proof.
  intros H. unfold strncpy. rewrite until_nul_stops by exact H.
  cbn [fst]. rewrite firstn_all, Nat.sub_diag. apply app_nil_r.
Qed.

Lemma strncpy_with_nul p q :
  nul_free p ->
  strncpy ((p ++ NUL :: q) ++ [NUL]) (List.length (p ++ NUL :: q))
  = p ++ repeat NUL (S (List.length q)).
Proof.
  intros H. unfold strncpy. rewrite <- app_assoc. cbn [app].
  rewrite until_nul_stops by exact H. cbn [fst].
  rewrite length_app. cbn [List.length].
  rewrite firstn_all2 by lia. f_equal. f_equal. lia.
Qed.

Lemma strncpy_length src n : List.length (strncpy src n) = n.
Proof.
  unfold strncpy. rewrite length_app, repeat_length.
  pose proof (firstn_le_length n (fst (until_nul src))). lia.
Qed.

Lemma get_output_loop_skip jobid pre j post :
  (forall x, In x pre -> job_id x <> jobid) -> job_id j = jobid ->
  get_output_loop jobid (pre ++ j :: post) = job_output j.
Proof.
  intros Hpre Hj. induction pre as [| x pre IH]; cbn [app get_output_loop].
  - rewrite Hj, Z.eqb_refl. reflexivity.
  - destruct (job_id x =? jobid) eqn:E.
    + apply Z.eqb_eq in E. exfalso. apply (Hpre x); [left; reflexivity | exact E].
    + apply IH. intros y Hy. apply Hpre. right. exact Hy.
Qed.

Lemma until_nul_none b : nul_free b -> until_nul b = (b, false).
Proof.
  induction 1 as [| c b Hc Hb IH]; [reflexivity |].
  cbn [until_nul]. rewrite (eqb_nul c Hc), IH. reflexivity.
Qed.

(** C9 fails on the code: the block that receives the bytes [B] of the
    first drain has room for [B] and none for a terminator
    ([malloc(len)], then [strncpy(result, buf, len)]), while the code
    treats the captured output as a string.  When no byte of [B] is NUL
    the block that [jobs_get_output] returns holds the bytes of [B] and
    no NUL: reading the string runs past the end of the block, and so
    does the next drain of the job, which starts with [strlen] of the
    block.  When [B] has a NUL, the block holds the bytes of [B] before
    its first NUL and NULs from there on: the bytes after that NUL are
    lost. *)
Theorem capture_leaves_no_terminator
    (garbage : nat -> byte) (pre post : list JOB_NODE) (j : JOB_NODE)
    (B : list byte) :
  (forall x, In x pre -> job_id x <> job_id j) ->
  readfd j <> -1 ->
  job_output j = None ->
  B <> [] ->
  exists block,
    read_output_capture garbage j B = Ret (with_output j (Some block), 0)
    /\ jobs_get_output (Some (pre ++ with_output j (Some block) :: post))
         (job_id j) = Some block
    /\ List.length block = List.length B
    /\ (nul_free B ->
        block = B
        /\ c_str block = Fault
        /\ forall more, more <> [] ->
             read_output_capture garbage (with_output j (Some block)) more
             = Fault)
    /\ (forall p q, B = p ++ NUL :: q -> nul_free p ->
          block = p ++ repeat NUL (S (List.length q))
          /\ c_str block = Ret p
          /\ (q <> repeat NUL (List.length q) -> block <> B)).
Proof.
  intros Hpre Hfd Hout HB.
  exists (strncpy (B ++ [NUL]) (List.length B)).
  split; [| split; [| split; [| split]]].
  - unfold read_output_capture.
    destruct (readfd j =? -1) eqn:E; [apply Z.eqb_eq in E; contradiction |].
    destruct B as [| c B']; [contradiction |].
    cbn [List.length Nat.ltb Nat.leb]. rewrite Hout. reflexivity.
  - cbn [jobs_get_output].
    rewrite (get_output_loop_skip (job_id j) pre); auto.
  - apply strncpy_length.
  - intros Hfree. rewrite strncpy_nul_free by exact Hfree.
    assert (Hc : c_str B = Fault).
    { unfold c_str. rewrite until_nul_none by exact Hfree. reflexivity. }
    split; [reflexivity |]. split; [exact Hc |].
    intros more Hmore. unfold read_output_capture.
    cbn [with_output readfd job_output].
    destruct (readfd j =? -1) eqn:E; [apply Z.eqb_eq in E; contradiction |].
    destruct more as [| c more']; [contradiction |].
    cbn [List.length Nat.ltb Nat.leb]. rewrite Hc. reflexivity.
  - intros p q -> Hp. rewrite strncpy_with_nul by exact Hp.
    split; [reflexivity |]. split.
    + unfold c_str. cbn [repeat]. rewrite until_nul_stops by exact Hp.
      reflexivity.
    + intros Hq E. apply app_inv_head in E. cbn [repeat] in E.
      injection E as E. apply Hq. symmetry. exact E.
Qed.

Lemma capture_leaves_no_terminator_witness :
  exists block,
    read_output_capture (fun _ => x00) running_job [x68; x69]
    = Ret (with_output running_job (Some block), 0)
    /\ jobs_get_output (Some ([] ++ with_output running_job (Some block) :: []))
         (job_id running_job) = Some block
    /\ List.length block = List.length [x68; x69]
    /\ (nul_free [x68; x69] ->
        block = [x68; x69]
        /\ c_str block = Fault
        /\ forall more, more <> [] ->
             read_output_capture (fun _ => x00)
               (with_output running_job (Some block)) more
             = Fault)
    /\ (forall p q, [x68; x69] = p ++ NUL :: q -> nul_free p ->
          block = p ++ repeat NUL (S (List.length q))
          /\ c_str block = Ret p
          /\ (q <> repeat NUL (List.length q) -> block <> [x68; x69])).
Proof.
  apply (capture_leaves_no_terminator (fun _ => x00) [] [] running_job
           [x68; x69]).
  - intros x [].
  - cbn. lia.
  - reflexivity.
  - discriminate.
Defined.

(** The two ways in which the bytes are not what [jobs_get_output]
    gives back.  The bytes 'h', 'i': the block holds them without a
    terminator, and a second drain runs past its end.  The bytes 'a',
    NUL, 'b': the block holds 'a' and two NULs. *)
Example capture_two_cases :
  read_output_capture (fun _ => x00) running_job [x68; x69]
  = Ret (with_output running_job (Some [x68; x69]), 0)
  /\ c_str [x68; x69] = Fault
  /\ read_output_capture (fun _ => x00)
       (with_output running_job (Some [x68; x69])) [x21]
     = Fault
  /\ read_output_capture (fun _ => x00) running_job [x61; x00; x62]
     = Ret (with_output running_job (Some [x61; x00; x00]), 0)
  /\ c_str [x61; x00; x00] = Ret [x61].
Proof. repeat split. Qed.

(** *** More on the job table *)

Lemma change_status_loop_absent pid st es : forall t,
  (forall j, In j t -> pgid j <> pid) ->
  change_status_loop pid st es t = (t, -1).
Proof.
  induction t as [| x t IH]; intros H; cbn [change_status_loop]; [reflexivity |].
  destruct (pgid x =? pid) eqn:E.
  - apply Z.eqb_eq in E. exfalso. apply (H x); [left; reflexivity | exact E].
  - rewrite IH by (intros j Hj; apply H; right; exact Hj). reflexivity.
Qed.

Lemma change_status_loop_frame pid st es : forall t,
  Forall2 (fun j j' => j' = j \/ j' = with_status j st es)
          t (fst (change_status_loop pid st es t)).
Proof.
  induction t as [| x t IH]; cbn [change_status_loop]; [constructor |].
  destruct (pgid x =? pid).
  - cbn [fst]. constructor; [right; reflexivity |].
    clear IH. induction t; constructor; auto.
  - destruct (change_status_loop pid st es t) as [t' r]. cbn [fst] in *.
    constructor; [left; reflexivity | exact IH].
Qed.

Lemma change_job_status_fst t pid st es :
  fst (change_job_status (Some t) pid st es)
  = Some (fst (change_status_loop pid st es t)).
Proof.
  unfold change_job_status.
  destruct (change_status_loop pid st es t); reflexivity.
Qed.

(** What [child_handler] returns: the table as it was, or the table
    after [change_job_status] for the pid that was reaped. *)
Lemma child_handler_shape t answers jt' :
  child_handler (Some t) answers = Some jt' ->
  jt' = Some t
  \/ exists pid chstatus,
       reap_loop answers = Some (pid, chstatus)
       /\ jt' = Some (fst (change_status_loop pid (status_for chstatus)
                             chstatus t)).
Proof.
  unfold child_handler.
  destruct (reap_loop answers) as [[pid chstatus] |]; [| discriminate].
  destruct (0 <? pid); [| intros [= <-]; left; reflexivity].
  destruct (negb _); [| intros [= <-]; left; reflexivity].
  cbv zeta. rewrite !change_job_status_fst. intros H.
  right. exists pid, chstatus. split; [reflexivity |].
  revert H. unfold status_for.
  destruct (WEXITSTATUS chstatus =? EXIT_SUCCESS);
    [| destruct (WEXITSTATUS chstatus =? SIGKILL)];
    intros [= <-]; reflexivity.
Qed.

(** What [change_job_status] does to the list: nothing, or it writes the
    status and the exit status of the first job of the process group. *)
Lemma change_status_loop_first_of pid st es : forall t,
  fst (change_status_loop pid st es t) = t
  \/ exists pre j post,
       t = pre ++ j :: post
       /\ (forall x, In x pre -> pgid x <> pid)
       /\ pgid j = pid
       /\ fst (change_status_loop pid st es t)
          = pre ++ with_status j st es :: post.
Proof.
  induction t as [| x t IH]; cbn [change_status_loop]; [left; reflexivity |].
  destruct (pgid x =? pid) eqn:E.
  - right. exists [], x, t. cbn [app fst].
    repeat split; [intros y [] | apply Z.eqb_eq, E].
  - apply Z.eqb_neq in E.
    destruct (change_status_loop pid st es t) as [t' r]. cbn [fst] in *.
    destruct IH as [-> | (pre & j & post & -> & Hpre & Hj & ->)].
    + left. reflexivity.
    + right. exists (x :: pre), j, post. cbn [app].
      repeat split; [| exact Hj].
      intros y [<- | Hy]; [exact E | apply Hpre, Hy].
Qed.

(** X13: a notice of termination changes at most one job, the first job
    of the table whose process group is the pid reaped, and of that job
    the status and the exit status only, the latter becoming the raw
    wait status: every job keeps its id, its process group, its
    descriptor, its pipeline and its captured output, no job is added or
    removed, and when the pid reaped is the process group of no job (a
    stage of a pipeline, for one) the table is left as it was. *)
Theorem child_handler_changes_status_only (t : JOB_TABLE)
    (answers : list (Z * Z)) (jt' : option JOB_TABLE) :
  child_handler (Some t) answers = Some jt' ->
  exists t',
    jt' = Some t'
    /\ (t' = t
        \/ exists pid chstatus pre j post st,
             reap_loop answers = Some (pid, chstatus)
             /\ t = pre ++ j :: post
             /\ (forall x, In x pre -> pgid x <> pid)
             /\ pgid j = pid
             /\ t' = pre
                     ++ {| job_id := job_id j; pgid := pgid j; status := st;
                           exit_status := chstatus; readfd := readfd j;
                           pipeline := pipeline j;
                           job_output := job_output j |}
                     :: post)
    /\ Forall2 (fun j j' => j' = j
                  \/ exists st es, j' = with_status j st es) t t'
    /\ (forall pid chstatus,
          reap_loop answers = Some (pid, chstatus) ->
          (forall j, In j t -> pgid j <> pid) -> t' = t).
Proof.
  intros H. destruct (child_handler_shape t answers jt' H)
    as [-> | (pid & chstatus & Hr & ->)].
  - exists t. split; [reflexivity |]. split; [left; reflexivity |].
    split; [| reflexivity].
    clear H. induction t; constructor; auto.
  - eexists. split; [reflexivity |]. split; [| split].
    + destruct (change_status_loop_first_of pid (status_for chstatus)
                  chstatus t)
        as [E | (pre & j & post & Ht & Hpre & Hj & E)].
      * left. exact E.
      * right. exists pid, chstatus, pre, j, post, (status_for chstatus).
        repeat match goal with |- _ /\ _ => split end; try assumption.
    + eapply Forall2_impl; [| apply change_status_loop_frame].
      intros j j' [-> | ->]; eauto.
    + intros pid' st' Hr' Hno. rewrite Hr in Hr'. injection Hr' as <- <-.
      rewrite change_status_loop_absent by exact Hno. reflexivity.
Qed.

Lemma child_handler_changes_status_only_witness :
  exists t',
    Some [running_job; with_status second_job "aborted" 256] = Some t'
    /\ (t' = [running_job; second_job]
        \/ exists pid chstatus pre j post st,
             reap_loop [(102, 256)] = Some (pid, chstatus)
             /\ [running_job; second_job] = pre ++ j :: post
             /\ (forall x, In x pre -> pgid x <> pid)
             /\ pgid j = pid
             /\ t' = pre
                     ++ {| job_id := job_id j; pgid := pgid j; status := st;
                           exit_status := chstatus; readfd := readfd j;
                           pipeline := pipeline j;
                           job_output := job_output j |}
                     :: post)
    /\ Forall2 (fun j j' => j' = j
                  \/ exists st es, j' = with_status j st es)
               [running_job; second_job] t'
    /\ (forall pid chstatus,
          reap_loop [(102, 256)] = Some (pid, chstatus) ->
          (forall j, In j [running_job; second_job] -> pgid j <> pid) ->
          t' = [running_job; second_job]).
Proof.
  apply (child_handler_changes_status_only [running_job; second_job]
           [(102, 256)]).
  reflexivity.
Defined.

Lemma read_output_capture_frame garbage j avail j' r :
  read_output_capture garbage j avail = Ret (j', r) ->
  j' = j \/ exists o, j' = with_output j o.
Proof.
  unfold read_output_capture.
  destruct (readfd j =? -1); [intros [= <- _]; left; reflexivity |].
  destruct (0 <? List.length avail)%nat; [| intros [= <- _]; left; reflexivity].
  destruct (job_output j) as [old |].
  - destruct (c_str old) as [o | |]; try discriminate.
    destruct (strcat _ _) as [block | |]; try discriminate.
    intros [= <- _]. eauto.
  - intros [= <- _]. eauto.
Qed.

Lemma read_output_capture_quiet garbage j avail :
  readfd j = -1 \/ avail = [] ->
  exists r, read_output_capture garbage j avail = Ret (j, r).
Proof.
  unfold read_output_capture. intros [H | ->].
  - rewrite H, Z.eqb_refl. eauto.
  - destruct (readfd j =? -1); cbn; eauto.
Qed.

Lemma io_handler_shape garbage t pending jt' :
  io_handler garbage (Some t) pending = Ret jt' ->
  exists t', jt' = Some t'
    /\ Forall2 (fun j j' => j' = j \/ exists o, j' = with_output j o) t t'.
Proof.
  unfold io_handler.
  destruct (io_loop garbage pending t) as [t' | |] eqn:E; try discriminate.
  intros [= <-]. exists t'. split; [reflexivity |].
  revert t' E. induction t as [| x t IH]; intros t'; cbn [io_loop].
  - intros [= <-]. constructor.
  - destruct (read_output_capture garbage x (pending (readfd x)))
      as [[x' r] | |] eqn:Ex; try discriminate.
    destruct (io_loop garbage pending t) as [t0 | |]; try discriminate.
    intros [= <-]. constructor; [| apply IH; reflexivity].
    apply (read_output_capture_frame _ _ _ _ _ Ex).
Qed.

(** X14: the handler of SIGIO touches nothing but captured output: when
    it returns, every job is the job it was, but for its [job_output];
    and when no job that captures has bytes to read, the table is left
    as it was. *)
Theorem io_handler_changes_output_only (garbage : nat -> byte)
    (t : JOB_TABLE) (pending : Z -> list byte) :
  (forall jt', io_handler garbage (Some t) pending = Ret jt' ->
     exists t', jt' = Some t'
       /\ Forall2 (fun j j' => j' = j \/ exists o, j' = with_output j o) t t')
  /\ ((forall j, In j t -> readfd j = -1 \/ pending (readfd j) = []) ->
      io_handler garbage (Some t) pending = Ret (Some t)).
Proof.
  split.
  - intros jt'. apply io_handler_shape.
  - intros H. unfold io_handler.
    assert (Hl : io_loop garbage pending t = Ret t).
    { induction t as [| x t IH]; cbn [io_loop]; [reflexivity |].
      destruct (read_output_capture_quiet garbage x (pending (readfd x)))
        as [r ->]; [apply H; left; reflexivity |].
      rewrite IH by (intros j Hj; apply H; right; exact Hj). reflexivity. }
    rewrite Hl. reflexivity.
Qed.

Lemma status_of_find jobid t :
  status_of jobid t
  = option_map (fun j => (status j, exit_status j))
               (find (fun x => job_id x =? jobid) t).
Proof.
  induction t as [| x t IH]; cbn [status_of find]; [reflexivity |].
  destruct (job_id x =? jobid); [reflexivity | exact IH].
Qed.

Lemma find_job_id jobid t j :
  find (fun x => job_id x =? jobid) t = Some j -> job_id j = jobid.
Proof. intros H. apply find_some in H. destruct H as [_ H]. lia. Qed.

(** The job found by its id and by its process group is the job
    [change_job_status] updates. *)
Lemma change_status_loop_by_id jobid st es : forall t j,
  find (fun x => job_id x =? jobid) t = Some j ->
  find (fun x => pgid x =? pgid j) t = Some j ->
  find (fun x => job_id x =? jobid)
       (fst (change_status_loop (pgid j) st es t))
  = Some (with_status j st es).
Proof.
  induction t as [| x t IH]; intros j; cbn [find change_status_loop];
    [discriminate |].
  destruct (pgid x =? pgid j) eqn:Ep.
  - intros Hid [= ->]. cbn [fst find with_status job_id].
    destruct (job_id j =? jobid) eqn:E; [reflexivity |].
    apply find_job_id in Hid. apply Z.eqb_neq in E. contradiction.
  - destruct (job_id x =? jobid) eqn:Ei.
    + intros [= ->]. rewrite Z.eqb_refl in Ep. discriminate.
    + intros Hid Hpg. specialize (IH j Hid Hpg).
      destruct (change_status_loop (pgid j) st es t) as [t' r].
      cbn [fst find] in *. rewrite Ei. exact IH.
Qed.

Lemma child_handler_step t pid chstatus :
  0 < pid ->
  Z.lor (Z.lor (WIFSTOPPED chstatus) (WIFSIGNALED chstatus))
        (WIFEXITED chstatus) <> 0 ->
  child_handler (Some t) [(pid, chstatus)]
  = Some (Some (fst (change_status_loop pid (status_for chstatus)
                       chstatus t))).
Proof.
  intros Hpid Hany. unfold child_handler. cbn [reap_loop].
  replace (pid <=? 0) with false by (symmetry; apply Z.leb_gt; lia).
  replace (0 <? pid) with true by (symmetry; apply Z.ltb_lt; lia).
  apply Z.eqb_neq in Hany. rewrite Hany. cbn [negb].
  cbv zeta. rewrite !change_job_status_fst. unfold status_for.
  destruct (WEXITSTATUS chstatus =? EXIT_SUCCESS);
    [| destruct (WEXITSTATUS chstatus =? SIGKILL)]; reflexivity.
Qed.

Lemma status_for_terminated chstatus : terminated (status_for chstatus) = true.
Proof.
  unfold status_for.
  destruct (WEXITSTATUS chstatus =? EXIT_SUCCESS);
    [| destruct (WEXITSTATUS chstatus =? SIGKILL)]; reflexivity.
Qed.

Lemma wait_loop_terminated garbage jobid t j rounds :
  find (fun x => job_id x =? jobid) t = Some j ->
  terminated (status j) = true ->
  wait_loop garbage jobid (Some t) rounds
  = Some (Ret (Some t, exit_status j)).
Proof.
  intros Hf Ht. destruct rounds; cbn [wait_loop];
    rewrite status_of_find, Hf; cbn [option_map]; rewrite Ht; reflexivity.
Qed.

(** X15: [jobs_wait] and the notice of termination.  Take a job that has
    not terminated and is the first job of the table with its process
    group.  When the run of [child_handler] that ends [sigsuspend] reaps
    its leader, [jobs_wait] returns the raw wait status of the leader,
    whatever comes later; from then on [jobs_poll] returns that status,
    and [jobs_wait] returns it again without waiting for anything.  But
    when the leader is reaped by a run of [child_handler] that comes
    between the test of the status and the call of [sigsuspend], and no
    SIGCHLD comes after it, [jobs_wait] does not return, although the
    table has the job terminated. *)
Theorem wait_returns_the_leader_status (garbage : nat -> byte)
    (t : JOB_TABLE) (jobid : Z) (j : JOB_NODE) (chstatus : Z)
    (later : list round) :
  find (fun x => job_id x =? jobid) t = Some j ->
  find (fun x => pgid x =? pgid j) t = Some j ->
  terminated (status j) = false ->
  0 < pgid j ->
  Z.lor (Z.lor (WIFSTOPPED chstatus) (WIFSIGNALED chstatus))
        (WIFEXITED chstatus) <> 0 ->
  exists t',
    jobs_wait garbage (Some t) jobid
      ({| racing := []; woken := Some [(pgid j, chstatus)];
          following := [] |} :: later)
    = Some (Ret (Some t', chstatus))
    /\ jobs_poll (Some t') jobid = chstatus
    /\ (forall rounds,
          jobs_wait garbage (Some t') jobid rounds
          = Some (Ret (Some t', chstatus)))
    /\ handle_all garbage (Some t) [SIGCHLD [(pgid j, chstatus)]]
       = Some (Ret (Some t'))
    /\ jobs_wait garbage (Some t) jobid
         [ {| racing := [SIGCHLD [(pgid j, chstatus)]]; woken := None;
              following := [] |} ]
       = None.
Proof.
  intros Hid Hpg Hrun Hpid Hany.
  set (t' := fst (change_status_loop (pgid j) (status_for chstatus)
                    chstatus t)).
  assert (Hid' : find (fun x => job_id x =? jobid) t'
                 = Some (with_status j (status_for chstatus) chstatus))
    by (apply change_status_loop_by_id; assumption).
  assert (Hw : forall rounds,
             wait_loop garbage jobid (Some t') rounds
             = Some (Ret (Some t', chstatus))).
  { intros rounds.
    rewrite (wait_loop_terminated garbage jobid t' _ rounds Hid');
      [reflexivity | apply status_for_terminated]. }
  assert (Hh : handle_all garbage (Some t) [SIGCHLD [(pgid j, chstatus)]]
               = Some (Ret (Some t'))).
  { cbn [handle_all handle].
    rewrite (child_handler_step t (pgid j) chstatus Hpid Hany).
    reflexivity. }
  exists t'. repeat match goal with |- _ /\ _ => split end.
  - unfold jobs_wait. cbn [wait_loop].
    rewrite status_of_find, Hid. cbn [option_map]. rewrite Hrun.
    cbn [racing woken following]. cbn [handle_all handle] in Hh |- *.
    rewrite (child_handler_step t (pgid j) chstatus Hpid Hany).
    apply Hw.
  - cbn [jobs_poll]. rewrite (poll_loop_find jobid t' _ Hid').
    cbn [with_status status exit_status].
    rewrite status_for_terminated. reflexivity.
  - exact Hw.
  - exact Hh.
  - unfold jobs_wait. cbn [wait_loop].
    rewrite status_of_find, Hid. cbn [option_map]. rewrite Hrun.
    cbn [racing woken following]. rewrite Hh. reflexivity.
Qed.

Lemma wait_returns_the_leader_status_witness :
  exists t',
    jobs_wait (fun _ => x00) (Some [running_job]) 0
      ({| racing := []; woken := Some [(pgid running_job, 256)];
          following := [] |} :: [])
    = Some (Ret (Some t', 256))
    /\ jobs_poll (Some t') 0 = 256
    /\ (forall rounds,
          jobs_wait (fun _ => x00) (Some t') 0 rounds
          = Some (Ret (Some t', 256)))
    /\ handle_all (fun _ => x00) (Some [running_job])
         [SIGCHLD [(pgid running_job, 256)]]
       = Some (Ret (Some t'))
    /\ jobs_wait (fun _ => x00) (Some [running_job]) 0
         [ {| racing := [SIGCHLD [(pgid running_job, 256)]]; woken := None;
              following := [] |} ]
       = None.
Proof.
  apply (wait_returns_the_leader_status (fun _ => x00) [running_job] 0
           running_job 256 []);
    try reflexivity.
  discriminate.
Defined.

(** What [jobs_expunge] does to the list: nothing, or it takes out the
    first job with the id. *)
Lemma expunge_loop_shape close jobid : forall t t' r,
  expunge_loop close jobid t = Ret (t', r) ->
  (r = -1 /\ t' = t /\ forall x, In x t -> job_id x <> jobid)
  \/ (r = 0 /\ exists pre j post,
        t = pre ++ j :: post /\ t' = pre ++ post /\ job_id j = jobid
        /\ forall x, In x pre -> job_id x <> jobid).
Proof.
  induction t as [| x t IH]; intros t' r; cbn [expunge_loop].
  - intros [= <- <-]. left. repeat split. intros x [].
  - destruct (job_id x =? jobid) eqn:E.
    + destruct (negb (readfd x =? -1) && (close (readfd x) <? 0));
        [discriminate |].
      intros [= <- <-]. right. split; [reflexivity |].
      exists [], x, t. apply Z.eqb_eq in E. repeat split; auto.
    + apply Z.eqb_neq in E.
      destruct (expunge_loop close jobid t) as [[t0 r0] | |];
        try discriminate.
      intros [= <- <-].
      destruct (IH t0 r0 eq_refl)
        as [(-> & -> & Hno) | (-> & pre & j & post & -> & -> & Hj & Hpre)].
      * left. repeat split. intros y [<- | Hy]; auto.
      * right. split; [reflexivity |].
        exists (x :: pre), j, post. repeat split; auto.
        intros y [<- | Hy]; auto.
Qed.

Lemma sorted_remove (R : Z -> Z -> Prop) x : forall l1 l2,
  StronglySorted R (l1 ++ x :: l2) -> StronglySorted R (l1 ++ l2).
Proof.
  induction l1 as [| a l1 IH]; intros l2 H; cbn [app] in *.
  - inversion H; assumption.
  - inversion H as [| ? ? Hs Hall]; subst. constructor; [apply IH, Hs |].
    apply Forall_app in Hall. destruct Hall as [H1 H2].
    apply Forall_app. split; [exact H1 |]. inversion H2; assumption.
Qed.

Lemma sorted_snoc n : forall l,
  StronglySorted Z.lt l -> Forall (fun i => 0 <= i < n) l ->
  StronglySorted Z.lt (l ++ [n]).
Proof.
  induction l as [| a l IH]; intros Hs Hb; cbn [app].
  - repeat constructor.
  - inversion Hs as [| ? ? Hs' Hall]; subst.
    inversion Hb as [| ? ? Ha Hb']; subst.
    constructor; [apply IH; assumption |].
    apply Forall_app. split; [exact Hall |].
    constructor; [lia | constructor].
Qed.

Lemma frame_ids (R : JOB_NODE -> JOB_NODE -> Prop) t t' :
  (forall j j', R j j' -> job_id j' = job_id j) ->
  Forall2 R t t' -> ids t' = ids t.
Proof.
  intros HR H. induction H as [| j j' t t' Hj _ IH]; [reflexivity |].
  unfold ids in *. cbn [map]. rewrite IH, (HR j j' Hj). reflexivity.
Qed.

Lemma wrap_int_small z : - 2 ^ 31 <= z <= INT_MAX -> wrap_int z = z.
Proof.
  unfold wrap_int, INT_MAX. intros H. rewrite Z.mod_small; lia.
Qed.

(** X16: job ids are never used twice.  While the ids of the table
    increase along the list and lie below the counter, this stays so
    through every notice of termination, every notice of input, every
    [jobs_expunge] and every [jobs_run]; and [jobs_run] returns the
    counter as the id of the new job, an id no job of the table has, and
    moves the counter past it. *)
Theorem job_ids_are_never_reused (t : JOB_TABLE) (jid : Z) :
  ids_ok t jid -> 0 <= jid < INT_MAX ->
  (forall answers jt',
     child_handler (Some t) answers = Some jt' ->
     exists t', jt' = Some t' /\ ids_ok t' jid)
  /\ (forall garbage pending jt',
        io_handler garbage (Some t) pending = Ret jt' ->
        exists t', jt' = Some t' /\ ids_ok t' jid)
  /\ (forall close jobid jt' r,
        jobs_expunge close (Some t) jobid = Ret (jt', r) ->
        exists t', jt' = Some t' /\ ids_ok t' jid)
  /\ (forall close cofd fork_pid leader_code pline jt' jid' r,
        jobs_run close cofd fork_pid leader_code (Some t) jid (Some pline)
        = Ret (jt', jid', r) ->
        exists t', jt' = Some t' /\ ids_ok t' jid'
                   /\ r = jid /\ jid' = jid + 1 /\ ~ In r (ids t)
                   /\ ids t' = ids t ++ [r]).
Proof.
  intros [Hs Hb] Hjid. split; [| split; [| split]].
  - intros answers jt' H.
    destruct (child_handler_shape t answers jt' H)
      as [-> | (pid & chstatus & _ & ->)].
    + exists t. split; [reflexivity | split; assumption].
    + eexists. split; [reflexivity |].
      assert (E : ids (fst (change_status_loop pid (status_for chstatus)
                              chstatus t)) = ids t).
      { eapply frame_ids; [| apply change_status_loop_frame].
        intros j j' [-> | ->]; reflexivity. }
      unfold ids_ok. rewrite E. split; assumption.
  - intros garbage pending jt' H.
    destruct (io_handler_shape garbage t pending jt' H) as (t' & -> & HF).
    exists t'. split; [reflexivity |].
    assert (E : ids t' = ids t).
    { eapply frame_ids; [| exact HF].
      intros j j' [-> | [o ->]]; reflexivity. }
    unfold ids_ok. rewrite E. split; assumption.
  - intros close jobid jt' r. unfold jobs_expunge.
    destruct (jobs_poll (Some t) jobid =? -1).
    + intros [= <- <-]. exists t. split; [reflexivity | split; assumption].
    + destruct (expunge_loop close jobid t) as [[t0 r0] | |] eqn:E;
        try discriminate.
      intros [= <- <-]. exists t0. split; [reflexivity |].
      destruct (expunge_loop_shape close jobid t t0 r0 E)
        as [(_ & -> & _) | (_ & pre & j & post & -> & -> & _ & _)].
      * split; assumption.
      * unfold ids_ok, ids in *. rewrite map_app in *. cbn [map] in *.
        split; [apply (sorted_remove _ _ _ _ Hs) |].
        apply Forall_app in Hb. destruct Hb as [H1 H2].
        apply Forall_app. split; [exact H1 |]. inversion H2; assumption.
  - intros close cofd fork_pid leader_code pline jt' jid' r.
    unfold jobs_run.
    destruct (fork_pid =? 0); [discriminate |].
    destruct (close (snd cofd) <? 0); [discriminate |].
    assert (Hfresh : ~ In jid (ids t)).
    { intros Hin. rewrite Forall_forall in Hb. specialize (Hb jid Hin). lia. }
    assert (Hgo : forall fd,
              Ret (Some (t ++ [new_job jid fork_pid fd pline]),
                   wrap_int (jid + 1), jid) = Ret (jt', jid', r) ->
              exists t', jt' = Some t' /\ ids_ok t' jid'
                         /\ r = jid /\ jid' = jid + 1 /\ ~ In r (ids t)
                         /\ ids t' = ids t ++ [r]).
    { intros fd [= <- <- <-].
      rewrite wrap_int_small by (unfold INT_MAX in *; lia).
      eexists. split; [reflexivity |].
      assert (E : ids (t ++ [new_job jid fork_pid fd pline]) = ids t ++ [jid]).
      { unfold ids. rewrite map_app. reflexivity. }
      split; [| repeat split; assumption].
      unfold ids_ok. rewrite E. split.
      - apply sorted_snoc; assumption.
      - apply Forall_app. split.
        + revert Hb. apply Forall_impl. intros; lia.
        + constructor; [lia | constructor]. }
    destruct (capture_output pline); [apply Hgo |].
    destruct (close (fst cofd) <? 0); [discriminate | apply Hgo].
Qed.

Lemma job_ids_are_never_reused_witness :
  exists t',
    Some ([running_job] ++ [new_job 1 200 (-1)
                              {| commands := []; input_file := None;
                                 output_file := None;
                                 capture_output := false |}]) = Some t'
    /\ ids_ok t' 2 /\ 1 = 1 /\ 2 = 1 + 1 /\ ~ In 1 (ids [running_job])
    /\ ids t' = ids [running_job] ++ [1].
Proof.
  assert (Hok : ids_ok [running_job] 1).
  { split; repeat constructor; cbn; lia. }
  assert (Hjid : 0 <= 1 < INT_MAX) by (unfold INT_MAX; lia).
  destruct (job_ids_are_never_reused [running_job] 1 Hok Hjid)
    as (_ & _ & _ & H).
  apply (H close_ok (7, 8) 200 0
           {| commands := []; input_file := None; output_file := None;
              capture_output := false |}).
  reflexivity.
Defined.

Lemma find_skip (f : JOB_NODE -> bool) : forall pre rest,
  (forall x, In x pre -> f x = false) ->
  find f (pre ++ rest) = find f rest.
Proof.
  induction pre as [| x pre IH]; intros rest H; cbn [app find]; [reflexivity |].
  rewrite (H x (or_introl eq_refl)). apply IH.
  intros y Hy. apply H. right. exact Hy.
Qed.

Lemma find_none_all (f : JOB_NODE -> bool) l :
  (forall x, In x l -> f x = false) -> find f l = None.
Proof.
  intros H. rewrite <- (app_nil_r l). rewrite find_skip by exact H.
  reflexivity.
Qed.

Lemma expunge_loop_removes close jobid j post : forall pre,
  (forall x, In x pre -> job_id x <> jobid) -> job_id j = jobid ->
  readfd j = -1 \/ 0 <= close (readfd j) ->
  expunge_loop close jobid (pre ++ j :: post) = Ret (pre ++ post, 0).
Proof.
  induction pre as [| x pre IH]; intros Hpre Hj Hfd; cbn [app expunge_loop].
  - rewrite Hj, Z.eqb_refl.
    replace (negb (readfd j =? -1) && (close (readfd j) <? 0)) with false;
      [reflexivity |].
    symmetry. apply andb_false_iff. destruct Hfd as [H | H].
    + left. rewrite H. reflexivity.
    + right. apply Z.ltb_ge. exact H.
  - replace (job_id x =? jobid) with false
      by (symmetry; apply Z.eqb_neq, Hpre; left; reflexivity).
    rewrite IH; [reflexivity | | exact Hj | exact Hfd].
    intros y Hy. apply Hpre. right. exact Hy.
Qed.

Lemma get_output_loop_find jobid t :
  get_output_loop jobid t
  = match find (fun x => job_id x =? jobid) t with
    | Some j => job_output j
    | None => None
    end.
Proof.
  induction t as [| x t IH]; cbn [get_output_loop find]; [reflexivity |].
  destruct (job_id x =? jobid); [reflexivity | exact IH].
Qed.

Lemma poll_loop_none jobid t :
  find (fun x => job_id x =? jobid) t = None -> poll_loop jobid t = -1.
Proof.
  induction t as [| x t IH]; cbn [find poll_loop]; [reflexivity |].
  destruct (job_id x =? jobid); [discriminate | exact IH].
Qed.

(** X17: [jobs_expunge] of a job that has terminated (with a wait status
    other than -1), when its descriptor closes, takes that job out of
    the table and leaves all other jobs, in their order; afterwards the
    id is unknown: [jobs_poll] returns -1 for it and [jobs_get_output]
    returns no output. *)
Theorem expunge_removes_the_job (close : Z -> Z)
    (pre post : list JOB_NODE) (j : JOB_NODE) :
  (forall x, In x (pre ++ post) -> job_id x <> job_id j) ->
  terminated (status j) = true ->
  exit_status j <> -1 ->
  readfd j = -1 \/ 0 <= close (readfd j) ->
  jobs_expunge close (Some (pre ++ j :: post)) (job_id j)
  = Ret (Some (pre ++ post), 0)
  /\ jobs_poll (Some (pre ++ post)) (job_id j) = -1
  /\ jobs_get_output (Some (pre ++ post)) (job_id j) = None.
Proof.
  intros Hother Hterm Hes Hfd.
  assert (Hpre : forall x, In x pre -> job_id x <> job_id j).
  { intros x Hx. apply Hother. apply in_or_app. left. exact Hx. }
  assert (Hgone : find (fun x => job_id x =? job_id j) (pre ++ post) = None).
  { apply find_none_all. intros x Hx. apply Z.eqb_neq, Hother, Hx. }
  split; [| split].
  - unfold jobs_expunge, jobs_poll.
    assert (Hf : find (fun x => job_id x =? job_id j) (pre ++ j :: post)
                 = Some j).
    { rewrite find_skip by (intros x Hx; apply Z.eqb_neq, Hpre, Hx).
      cbn [find]. rewrite Z.eqb_refl. reflexivity. }
    rewrite (poll_loop_find _ _ _ Hf), Hterm.
    replace (exit_status j =? -1) with false
      by (symmetry; apply Z.eqb_neq, Hes).
    rewrite expunge_loop_removes by auto. reflexivity.
  - cbn [jobs_poll]. apply poll_loop_none, Hgone.
  - cbn [jobs_get_output]. rewrite get_output_loop_find, Hgone. reflexivity.
Qed.

Lemma expunge_removes_the_job_witness :
  jobs_expunge close_ok
    (Some ([] ++ with_status running_job "completed" 0 :: []))
    (job_id (with_status running_job "completed" 0))
  = Ret (Some ([] ++ []), 0)
  /\ jobs_poll (Some ([] ++ []))
       (job_id (with_status running_job "completed" 0)) = -1
  /\ jobs_get_output (Some ([] ++ []))
       (job_id (with_status running_job "completed" 0)) = None.
Proof.
  apply (expunge_removes_the_job close_ok [] []
           (with_status running_job "completed" 0)).
  - intros x [].
  - reflexivity.
  - discriminate.
  - right. unfold close_ok. lia.
Defined.

Lemma cancel_loop_none kill jobid t :
  find (fun x => job_id x =? jobid) t = None -> cancel_loop kill jobid t = -1.
Proof.
  induction t as [| x t IH]; cbn [find cancel_loop]; [reflexivity |].
  destruct (job_id x =? jobid); [discriminate | exact IH].
Qed.

(** X18: the calls that are refused change nothing and return -1:
    [jobs_expunge] of a job that has not terminated or of an id no job
    has, and [jobs_cancel] of a job that has terminated with a wait
    status other than -1 (whatever [kill] would answer), of an id no job
    has, and of a job for which [kill] fails. *)
Theorem refused_calls_return_an_error (kill : Z -> Z -> Z) (close : Z -> Z)
    (t : JOB_TABLE) (jobid : Z) :
  (find (fun x => job_id x =? jobid) t = None ->
   jobs_expunge close (Some t) jobid = Ret (Some t, -1)
   /\ jobs_cancel kill (Some t) jobid = Ret (-1)
   /\ jobs_poll (Some t) jobid = -1)
  /\ (forall j, find (fun x => job_id x =? jobid) t = Some j ->
        (terminated (status j) = false ->
         jobs_expunge close (Some t) jobid = Ret (Some t, -1)
         /\ (kill (- pgid j) SIGKILL < 0 ->
             jobs_cancel kill (Some t) jobid = Ret (-1)))
        /\ (terminated (status j) = true -> exit_status j <> -1 ->
            jobs_cancel kill (Some t) jobid = Ret (-1))).
Proof.
  split.
  - intros Hnone. unfold jobs_expunge, jobs_cancel, jobs_poll.
    rewrite (poll_loop_none jobid t Hnone). cbn [Z.eqb negb].
    rewrite (cancel_loop_none kill jobid t Hnone). repeat split.
  - intros j Hf. unfold jobs_expunge, jobs_cancel, jobs_poll.
    rewrite (poll_loop_find jobid t j Hf). split.
    + intros Hrun. rewrite Hrun. cbn [Z.eqb negb]. split; [reflexivity |].
      intros Hk. rewrite (cancel_loop_find kill jobid t j Hf).
      replace (kill (- pgid j) SIGKILL <? 0) with true
        by (symmetry; apply Z.ltb_lt, Hk).
      reflexivity.
    + intros Hterm Hes. rewrite Hterm.
      replace (exit_status j =? -1) with false
        by (symmetry; apply Z.eqb_neq, Hes).
      reflexivity.
Qed.

Lemma c_str_stops p q : nul_free p -> c_str (p ++ NUL :: q) = Ret p.
Proof.
  intros H. unfold c_str. rewrite until_nul_stops by exact H. reflexivity.
Qed.

Lemma realloc_length garbage block n :
  List.length (realloc garbage block n) = n.
Proof.
  unfold realloc. rewrite length_app, length_map, length_seq.
  pose proof (firstn_le_length n block).
  destruct (Nat.le_gt_cases n (List.length block)) as [Hle | Hgt].
  - rewrite firstn_length_le by exact Hle. lia.
  - rewrite firstn_all2 by lia. lia.
Qed.

Lemma realloc_keeps_string garbage o rest n :
  (List.length o < n)%nat ->
  exists rest', realloc garbage (o ++ NUL :: rest) n = o ++ NUL :: rest'.
Proof.
  intros Hn. unfold realloc. rewrite firstn_app.
  rewrite firstn_all2 by lia.
  destruct (n - List.length o)%nat as [| k] eqn:E; [lia |].
  cbn [firstn]. rewrite <- app_assoc. cbn [app]. eauto.
Qed.

(** X19: a later pass of [read_output_capture] appends to the string
    captured so far: when the block of the job holds a string (it has a
    NUL) and the bytes drained have a NUL, the block afterwards holds
    the old string followed by the bytes drained before their first
    NUL. *)
Theorem later_capture_appends (garbage : nat -> byte) (j : JOB_NODE)
    (o rest p q : list byte) :
  readfd j <> -1 ->
  job_output j = Some (o ++ NUL :: rest) ->
  nul_free o -> nul_free p ->
  exists block,
    read_output_capture garbage j (p ++ NUL :: q)
    = Ret (with_output j (Some block), 0)
    /\ c_str block = Ret (o ++ p).
Proof.
  intros Hfd Hout Ho Hp. unfold read_output_capture.
  replace (readfd j =? -1) with false by (symmetry; apply Z.eqb_neq, Hfd).
  assert (Hlen : (0 <? List.length (p ++ NUL :: q))%nat = true).
  { apply Nat.ltb_lt. rewrite length_app. cbn [List.length]. lia. }
  rewrite Hlen, Hout, (c_str_stops o rest Ho).
  rewrite (strncpy_with_nul p q Hp).
  destruct (realloc_keeps_string garbage o rest
              (1 + List.length (p ++ NUL :: q) + List.length o))
    as [rest' Hre]; [lia |].
  pose proof (realloc_length garbage (o ++ NUL :: rest)
                (1 + List.length (p ++ NUL :: q) + List.length o)) as Hsize.
  rewrite Hre in *. unfold strcat.
  rewrite (c_str_stops o rest' Ho). cbn [repeat].
  rewrite (c_str_stops p _ Hp).
  replace (List.length o + List.length (p ++ [NUL])
           <=? List.length (o ++ NUL :: rest'))%nat with true.
  - eexists. split; [reflexivity |].
    rewrite <- (app_assoc p [NUL]). cbn [app]. rewrite app_assoc.
    apply c_str_stops. apply Forall_app. split; assumption.
  - symmetry. apply Nat.leb_le. rewrite Hsize, !length_app.
    cbn [List.length]. lia.
Qed.

Lemma later_capture_appends_witness :
  exists block,
    read_output_capture (fun _ => x00)
      (with_output running_job (Some ([x61] ++ NUL :: []))) ([x62] ++ NUL :: [])
    = Ret (with_output (with_output running_job (Some ([x61] ++ NUL :: [])))
             (Some block), 0)
    /\ c_str block = Ret ([x61] ++ [x62]).
Proof.
  apply (later_capture_appends (fun _ => x00)
           (with_output running_job (Some ([x61] ++ NUL :: [])))
           [x61] [] [x62] []).
  - cbn. lia.
  - reflexivity.
  - repeat constructor. discriminate.
  - repeat constructor. discriminate.
Defined.

Lemma show_loop_app show_pipeline : forall t1 t2,
  show_loop show_pipeline (t1 ++ t2)
  = (show_loop show_pipeline t1 ++ show_loop show_pipeline t2)%string.
Proof.
  induction t1 as [| x t1 IH]; intros t2; cbn [app show_loop];
    [reflexivity |].
  rewrite IH, ProgFacts.append_assoc. reflexivity.
Qed.

(** X21: [jobs_show] prints one line for each job, in the order in
    which the jobs were started: after a [jobs_run] that returns, the
    listing is the listing of before followed by the line of the new
    job, which gives its id, the pid [fork] returned and the status
    "running". *)
Theorem show_after_run (show_pipeline : option PIPELINE -> string)
    (close : Z -> Z) (cofd : Z * Z) (fork_pid leader_code : Z)
    (t : JOB_TABLE) (jid : Z) (pline : PIPELINE)
    (jt' : option JOB_TABLE) (jid' r : Z) :
  jobs_run close cofd fork_pid leader_code (Some t) jid (Some pline)
  = Ret (jt', jid', r) ->
  jobs_show show_pipeline jt'
  = ((fst (jobs_show show_pipeline (Some t))
      ++ (ltoa r ++ TAB ++ ltoa fork_pid ++ TAB ++ "running" ++ TAB
          ++ show_pipeline (Some pline) ++ NEWLINE))%string, 0).
Proof.
  unfold jobs_run.
  destruct (fork_pid =? 0); [discriminate |].
  destruct (close (snd cofd) <? 0); [discriminate |].
  assert (Hgo : forall fd,
            Ret (Some (t ++ [new_job jid fork_pid fd pline]),
                 wrap_int (jid + 1), jid) = Ret (jt', jid', r) ->
            jobs_show show_pipeline jt'
            = ((fst (jobs_show show_pipeline (Some t))
                ++ (ltoa r ++ TAB ++ ltoa fork_pid ++ TAB ++ "running" ++ TAB
                    ++ show_pipeline (Some pline) ++ NEWLINE))%string, 0)).
  { intros fd [= <- _ <-]. cbn [jobs_show fst].
    rewrite show_loop_app. cbn [show_loop]. unfold show_job.
    cbn [new_job job_id pgid status pipeline].
    rewrite ProgFacts.append_empty. reflexivity. }
  destruct (capture_output pline); [apply Hgo |].
  destruct (close (fst cofd) <? 0); [discriminate | apply Hgo].
Qed.

Lemma show_after_run_witness :
  jobs_show (fun _ => "cmd"%string)
    (Some ([running_job] ++ [new_job 1 200 7
                               {| commands := []; input_file := None;
                                  output_file := None;
                                  capture_output := true |}]))
  = ((fst (jobs_show (fun _ => "cmd"%string) (Some [running_job]))
      ++ (ltoa 1 ++ TAB ++ ltoa 200 ++ TAB ++ "running" ++ TAB
          ++ (fun _ : option PIPELINE => "cmd"%string)
               (Some {| commands := []; input_file := None;
                        output_file := None; capture_output := true |})
          ++ NEWLINE))%string, 0).
Proof.
  apply (show_after_run (fun _ => "cmd"%string) close_ok (7, 8) 200 0
           [running_job] 1
           {| commands := []; input_file := None; output_file := None;
              capture_output := true |} _ 2 1).
  reflexivity.
Defined.

End JobsFacts.
